(** * search-engine-go: provider fetch orchestration, circuit breaker,
      cached pagination and cache keys

    A shallow embedding of
      - [internal/infrastructure/circuitbreaker]  (CircuitBreaker),
      - [internal/service/provider_service.go]    (ProviderService),
      - [internal/service/content_service.go]     (paginateCachedResults,
                                                   generateCacheKey),
      - [internal/domain]                         (SearchRequest,
                                                   PaginationSpecification),
    followed by the properties of the specification stated over it. *)

From Stdlib Require Import ZArith Lia String Ascii List.
From stdpp Require Import base tactics option numbers list strings gmap.

Local Open Scope Z_scope.

(* ===================================================================== *)
(** ** Go base types                                                      *)
(* ===================================================================== *)

(** Go's [int] on the 64-bit targets the service is built for: two's
    complement, arithmetic wraps silently. *)
Module GoInt.

Definition min_int : Z := - 2 ^ 63.
Definition max_int : Z := 2 ^ 63 - 1.

Definition in_range (z : Z) : Prop := min_int <= z <= max_int.

Definition wrap (z : Z) : Z := (z + 2 ^ 63) mod 2 ^ 64 - 2 ^ 63.

Definition add (a b : Z) : Z := wrap (a + b).
Definition sub (a b : Z) : Z := wrap (a - b).
Definition mul (a b : Z) : Z := wrap (a * b).

End GoInt.

(** [time.Time] as an instant in nanoseconds, [time.Duration] as an int64
    count of nanoseconds.  [Time.Sub] (and so [time.Since]) saturates at
    the smallest and largest duration instead of wrapping. *)
Module GoTime.

Definition Time := Z.
Definition Duration := Z.

Definition zero : Time := 0.

Definition saturate (d : Z) : Duration :=
  if d <? GoInt.min_int then GoInt.min_int
  else if GoInt.max_int <? d then GoInt.max_int
  else d.

Definition Sub (t u : Time) : Duration := saturate (t - u).

(** [time.Since(t)] evaluated at instant [now]. *)
Definition Since (now t : Time) : Duration := Sub now t.

Definition Second : Duration := 1000000000.

End GoTime.

(** Go [error] values.  [errors.New] and [fmt.Errorf] without a wrapping
    verb build an [errorString]; [fmt.Errorf] with one wrapping verb
    builds a [wrapError] that remembers its cause.  A nil error is [None]
    of [option error]. *)
Inductive error : Type :=
| errorString (s : string)
| wrapError (msg : string) (cause : error).

Definition Error (e : error) : string :=
  match e with
  | errorString s => s
  | wrapError msg _ => msg
  end.

Definition errors_New (s : string) : error := errorString s.

Global Instance error_eq_dec : EqDecision error.
Proof. solve_decision. Defined.

(** Go slices as far as the service observes them: a nil slice is
    distinguished from an empty, allocated one. *)
Inductive slice (A : Type) : Type :=
| nil_slice
| mk_slice (elems : list A).
Arguments nil_slice {A}.
Arguments mk_slice {A} elems.

Definition elems {A} (s : slice A) : list A :=
  match s with
  | nil_slice => []
  | mk_slice l => l
  end.

Definition len {A} (s : slice A) : Z := Z.of_nat (length (elems s)).

Definition is_nil {A} (s : slice A) : bool :=
  match s with
  | nil_slice => true
  | mk_slice _ => false
  end.

(** [append(s, xs...)]: appending nothing gives back [s] itself (so a nil
    slice stays nil), appending something allocates. *)
Definition append {A} (s : slice A) (xs : list A) : slice A :=
  match xs with
  | [] => s
  | _ :: _ => mk_slice (elems s ++ xs)
  end.

(* ===================================================================== *)
(** ** internal/infrastructure/circuitbreaker                             *)
(* ===================================================================== *)

Inductive CircuitState : Type :=
| CircuitStateClosed
| CircuitStateOpen
| CircuitStateHalfOpen.

Global Instance CircuitState_eq_dec : EqDecision CircuitState.
Proof. solve_decision. Defined.

Definition CircuitState_String (s : CircuitState) : string :=
  match s with
  | CircuitStateClosed => "closed"
  | CircuitStateOpen => "open"
  | CircuitStateHalfOpen => "half-open"
  end.

Record CircuitBreaker : Type := mkCircuitBreaker {
  maxFailures : Z;
  resetTimeout : GoTime.Duration;
  halfOpenTimeout : GoTime.Duration;
  state : CircuitState;
  failureCount : Z;
  lastFailureTime : GoTime.Time;
  successCount : Z
}.

Definition set_state (st : CircuitState) (cb : CircuitBreaker) :=
  mkCircuitBreaker (maxFailures cb) (resetTimeout cb) (halfOpenTimeout cb)
    st (failureCount cb) (lastFailureTime cb) (successCount cb).

Definition set_failureCount (n : Z) (cb : CircuitBreaker) :=
  mkCircuitBreaker (maxFailures cb) (resetTimeout cb) (halfOpenTimeout cb)
    (state cb) n (lastFailureTime cb) (successCount cb).

Definition set_lastFailureTime (t : GoTime.Time) (cb : CircuitBreaker) :=
  mkCircuitBreaker (maxFailures cb) (resetTimeout cb) (halfOpenTimeout cb)
    (state cb) (failureCount cb) t (successCount cb).

Definition set_successCount (n : Z) (cb : CircuitBreaker) :=
  mkCircuitBreaker (maxFailures cb) (resetTimeout cb) (halfOpenTimeout cb)
    (state cb) (failureCount cb) (lastFailureTime cb) n.

Definition NewCircuitBreaker (maxFailures : Z) (resetTimeout : GoTime.Duration)
  : CircuitBreaker :=
  {| maxFailures := maxFailures;
     resetTimeout := resetTimeout;
     halfOpenTimeout := Z.quot resetTimeout 2;
     state := CircuitStateClosed;
     failureCount := 0;
     lastFailureTime := GoTime.zero;
     successCount := 0 |}.

Definition getState (cb : CircuitBreaker) : CircuitState := state cb.

(** [recordFailure], with [now] the reading of [time.Now()] inside it. *)
Definition recordFailure (now : GoTime.Time) (cb : CircuitBreaker)
  : CircuitBreaker :=
  let cb := set_failureCount (GoInt.add (failureCount cb) 1) cb in
  let cb := set_lastFailureTime now cb in
  match state cb with
  | CircuitStateHalfOpen =>
      set_successCount 0 (set_failureCount 1 (set_state CircuitStateOpen cb))
  | _ =>
      if maxFailures cb <=? failureCount cb
      then set_state CircuitStateOpen cb
      else cb
  end.

Definition recordSuccess (cb : CircuitBreaker) : CircuitBreaker :=
  let cb := set_failureCount 0 cb in
  match state cb with
  | CircuitStateHalfOpen =>
      let cb := set_successCount (GoInt.add (successCount cb) 1) cb in
      if 2 <=? successCount cb
      then set_successCount 0 (set_state CircuitStateClosed cb)
      else cb
  | CircuitStateOpen => set_state CircuitStateClosed cb
  | CircuitStateClosed => cb
  end.

Definition transitionToHalfOpen (cb : CircuitBreaker) : CircuitBreaker :=
  match state cb with
  | CircuitStateOpen =>
      set_failureCount 0 (set_successCount 0 (set_state CircuitStateHalfOpen cb))
  | _ => cb
  end.

Definition Reset (cb : CircuitBreaker) : CircuitBreaker :=
  set_successCount 0 (set_failureCount 0 (set_state CircuitStateClosed cb)).

Definition circuit_open_message : string := "circuit breaker is open".

(** The first half of [Execute] (the [switch] on the state): either the
    call is admitted, possibly after the move to half-open, or it is
    rejected with a fresh "circuit breaker is open" error.  [now] is the
    instant at which [time.Since] is evaluated. *)
Definition Execute_admit (now : GoTime.Time) (cb : CircuitBreaker)
  : CircuitBreaker + error :=
  match getState cb with
  | CircuitStateOpen =>
      let timeSinceLastFailure := GoTime.Since now (lastFailureTime cb) in
      if resetTimeout cb <=? timeSinceLastFailure
      then inl (transitionToHalfOpen cb)
      else inr (errors_New circuit_open_message)
  | CircuitStateHalfOpen => inl cb
  | CircuitStateClosed => inl cb
  end.

(** [Execute].  The wrapped [fn] is a Go closure: it acts on the part [W]
    of the world it captures (a mock's call counter, the variables it
    assigns) and returns an error or nil.  [now] is the instant of the
    admission check, [later] the instant at which a failure is recorded. *)
Definition Execute {W : Type} (now later : GoTime.Time)
    (fn : W -> W * option error) (cb : CircuitBreaker) (w : W)
  : CircuitBreaker * W * option error :=
  match Execute_admit now cb with
  | inr rejected => (cb, w, Some rejected)
  | inl cb =>
      let '(w, err) := fn w in
      match err with
      | Some e => (recordFailure later cb, w, Some e)
      | None => (recordSuccess cb, w, None)
      end
  end.

Definition GetState (cb : CircuitBreaker) : CircuitState := getState cb.

(* ===================================================================== *)
(** ** internal/domain                                                    *)
(* ===================================================================== *)

Definition ContentType := string.

Definition ContentTypeVideo : ContentType := "video".
Definition ContentTypeText : ContentType := "text".

(** [domain.Content]; the score and the timestamps play no part in what
    follows and are left out. *)
Record Content : Type := mkContent {
  ID : Z;
  ProviderID : string;
  Provider : string;
  Title : string;
  Type_ : ContentType;
  Views : Z;
  Likes : Z;
  ReadingTime : Z;
  Reactions : Z
}.

Record SearchRequest : Type := mkSearchRequest {
  Query : string;
  ContentType_ : option ContentType;
  Page : Z;
  PageSize : Z;
  SortBy : string;
  SortOrder : string
}.

Record SearchResponse : Type := mkSearchResponse {
  Items : slice Content;
  Total : Z;
  RespPage : Z;
  RespPageSize : Z;
  TotalPages : Z
}.

Definition DefaultPage : Z := 1.
Definition DefaultPageSize : Z := 20.
Definition MaxPageSize : Z := 100.

Definition isInvalidPage (page : Z) : bool := page <=? 0.
Definition isInvalidPageSize (pageSize : Z) : bool := pageSize <=? 0.
Definition exceedsMaxPageSize (pageSize : Z) : bool := MaxPageSize <? pageSize.

Definition NormalizePagination (req : SearchRequest) : SearchRequest :=
  let page := if isInvalidPage (Page req) then DefaultPage else Page req in
  let pageSize :=
    if isInvalidPageSize (PageSize req) then DefaultPageSize else PageSize req in
  let pageSize := if exceedsMaxPageSize pageSize then MaxPageSize else pageSize in
  mkSearchRequest (Query req) (ContentType_ req) page pageSize
    (SortBy req) (SortOrder req).

(* ===================================================================== *)
(** ** pkg/adapter                                                        *)
(* ===================================================================== *)

(** The [ProviderAdapter] interface.  The context argument is not
    modelled: a cancelled call is one that returns an error. *)
Record ProviderAdapter : Type := mkProviderAdapter {
  GetName : string;
  GetRateLimit : Z;
  FetchContent : string -> option ContentType -> slice Content * option error
}.

(** [AdapterRegistry] is a Go map from names to adapters. *)
Abbreviation AdapterRegistry := (gmap string ProviderAdapter).

Definition NewAdapterRegistry : AdapterRegistry := ∅.

Definition Register (name : string) (a : ProviderAdapter) (r : AdapterRegistry)
  : AdapterRegistry := <[name := a]> r.

Definition GetAll (r : AdapterRegistry) : gmap string ProviderAdapter := r.

(* ===================================================================== *)
(** ** internal/service: ProviderService                                  *)
(* ===================================================================== *)

(** Breakers are heap objects handed around by pointer.  [breakers] is
    the store of allocated breakers, a pointer is an index into it, and
    [circuitBreakers] is the service's map from provider names to
    pointers. *)
Definition ptr := nat.

Record ProviderService : Type := mkProviderService {
  registry : AdapterRegistry;
  breakers : list CircuitBreaker;
  circuitBreakers : gmap string ptr
}.

Global Instance CircuitBreaker_inhabited : Inhabited CircuitBreaker :=
  populate (NewCircuitBreaker 0 0).

Definition NewProviderService (registry : AdapterRegistry) : ProviderService :=
  {| registry := registry; breakers := []; circuitBreakers := ∅ |}.

Definition deref (s : ProviderService) (p : ptr) : CircuitBreaker :=
  breakers s !!! p.

Definition assign (p : ptr) (cb : CircuitBreaker) (s : ProviderService)
  : ProviderService :=
  mkProviderService (registry s) (<[p := cb]> (breakers s)) (circuitBreakers s).

(** The three sections of [getCircuitBreaker], each atomic on its own:
    the lookup under the read lock, the allocation of a new breaker
    outside any lock, the store under the write lock. *)
Definition lookupBreaker (providerName : string) (s : ProviderService)
  : option ptr := circuitBreakers s !! providerName.

Definition allocBreaker (s : ProviderService) : ptr * ProviderService :=
  (length (breakers s),
   mkProviderService (registry s)
     (breakers s ++ [NewCircuitBreaker 5 (30 * GoTime.Second)])
     (circuitBreakers s)).

Definition storeBreaker (providerName : string) (p : ptr) (s : ProviderService)
  : ProviderService :=
  mkProviderService (registry s) (breakers s)
    (<[providerName := p]> (circuitBreakers s)).

(** [getCircuitBreaker] run without interference. *)
Definition getCircuitBreaker (providerName : string) (s : ProviderService)
  : ptr * ProviderService :=
  match lookupBreaker providerName s with
  | Some cb => (cb, s)
  | None =>
      let '(cb, s) := allocBreaker s in
      (cb, storeBreaker providerName cb s)
  end.

Definition hasNoAdapters (adapters : gmap string ProviderAdapter) : bool :=
  bool_decide (size adapters = 0%nat).

Definition allProvidersFailed (contents : slice Content) (errors : slice error)
  : bool :=
  (len contents =? 0) && (0 <? len errors).

(** What one run of [FetchFromAllProviders] shares between its tasks. *)
Record fetchState : Type := mkFetchState {
  svc : ProviderService;
  allContents : slice Content;
  errors : slice error
}.

(** The closure handed to [Execute]: it assigns the captured variables
    [contents] and [err] and returns [err]. *)
Definition fetchClosure (providerAdapter : ProviderAdapter) (query : string)
    (contentType : option ContentType)
    (captured : slice Content * option error)
  : (slice Content * option error) * option error :=
  let '(contents, err) := FetchContent providerAdapter query contentType in
  ((contents, err), err).

(** [fmt.Errorf("provider %s: circuit breaker is open", providerName)] *)
Definition errProviderOpen (providerName : string) : error :=
  errorString ("provider " +:+ providerName +:+ ": circuit breaker is open").

(** [fmt.Errorf("provider %s: %w", providerName, cbErr)] *)
Definition errProviderWrap (providerName : string) (cbErr : error) : error :=
  wrapError ("provider " +:+ providerName +:+ ": " +:+ Error cbErr) cbErr.

(** The instants a task reads its clock at: the breaker's admission check
    and the moment it records a failure. *)
Definition clock := string -> GoTime.Time * GoTime.Time.

(** The body of one goroutine of [FetchFromAllProviders]. *)
Definition providerTask (clk : clock) (query : string)
    (contentType : option ContentType) (st : fetchState)
    (task : string * ProviderAdapter) : fetchState :=
  let '(providerName, providerAdapter) := task in
  let '(cb, s) := getCircuitBreaker providerName (svc st) in
  let '(now, later) := clk providerName in
  let '(breaker, (contents, err), cbErr) :=
    Execute now later (fetchClosure providerAdapter query contentType)
      (deref s cb) (nil_slice, None) in
  let s := assign cb breaker s in
  match cbErr with
  | Some cbErr =>
      if String.eqb (Error cbErr) "circuit breaker is open"
      then mkFetchState s (allContents st)
             (append (errors st) [errProviderOpen providerName])
      else mkFetchState s (allContents st)
             (append (errors st) [errProviderWrap providerName cbErr])
  | None =>
      mkFetchState s (append (allContents st) (elems contents)) (errors st)
  end.

(** A slice of errors under the [%v] verb. *)
Definition format_errors (errs : slice error) : string :=
  "[" +:+ String.concat " " (map Error (elems errs)) +:+ "]".

(** [fmt.Errorf("all providers failed: %v", errors)] *)
Definition errAllProvidersFailed (errs : slice error) : error :=
  errorString ("all providers failed: " +:+ format_errors errs).

(** The order in which the goroutines get to run: a rearrangement of the
    tasks ranged over.  Tasks work on different providers, hence on
    different breakers, and meet only at the registry of breakers and at
    the two shared slices, which they append to under the mutex; a whole
    task is therefore taken as one step. *)
Definition scheduler :=
  list (string * ProviderAdapter) -> list (string * ProviderAdapter).

Definition FetchFromAllProviders (sched : scheduler) (clk : clock)
    (query : string) (contentType : option ContentType) (s : ProviderService)
  : (slice Content * option error) * ProviderService :=
  let adapters := GetAll (registry s) in
  if hasNoAdapters adapters then ((mk_slice [], None), s)
  else
    let st :=
      foldl (providerTask clk query contentType)
        (mkFetchState s nil_slice nil_slice)
        (sched (map_to_list adapters)) in
    if allProvidersFailed (allContents st) (errors st)
    then ((nil_slice, Some (errAllProvidersFailed (errors st))), svc st)
    else ((allContents st, None), svc st).

(* ===================================================================== *)
(** ** internal/service: ContentService                                   *)
(* ===================================================================== *)

(** Slice expressions.  Go checks the bounds at run time and panics when
    they do not hold; a panic is [None].  Slicing a nil slice gives a nil
    slice. *)
Definition reslice {A} (s : slice A) (l : list A) : slice A :=
  match s with
  | nil_slice => nil_slice
  | mk_slice _ => mk_slice l
  end.

(** [s[lo:]] *)
Definition slice_from {A} (s : slice A) (lo : Z) : option (slice A) :=
  if (0 <=? lo) && (lo <=? len s)
  then Some (reslice s (drop (Z.to_nat lo) (elems s)))
  else None.

(** [s[lo:hi]], for a slice whose capacity is its length. *)
Definition slice_range {A} (s : slice A) (lo hi : Z) : option (slice A) :=
  if (0 <=? lo) && (lo <=? hi) && (hi <=? len s)
  then Some (reslice s (take (Z.to_nat (hi - lo)) (drop (Z.to_nat lo) (elems s))))
  else None.

Definition isStartBeyondBounds (start total : Z) : bool := total <? start.
Definition isEndBeyondBounds (end_ total : Z) : bool := total <? end_.

Definition paginateCachedResults (cached : slice Content) (page pageSize : Z)
  : option (slice Content) :=
  let start := GoInt.mul (GoInt.sub page 1) pageSize in
  let end_ := GoInt.add start pageSize in
  let total := len cached in
  if isStartBeyondBounds start total then Some (mk_slice [])
  else if isEndBeyondBounds end_ total then slice_from cached start
  else slice_range cached start end_.

(** [fmt.Sprintf("search:%s:%s:%s:%s", ...)] *)
Definition generateCacheKey (req : SearchRequest) : string :=
  let contentType :=
    match ContentType_ req with
    | Some ct => ct
    | None => "all"
    end in
  let sortOrder :=
    if String.eqb (SortOrder req) "" then "desc" else SortOrder req in
  "search:" +:+ Query req +:+ ":" +:+ contentType +:+ ":" +:+ SortBy req
    +:+ ":" +:+ sortOrder.

(** The head of [ContentService.Search]: normalisation of the request and
    the cache key it looks up. *)
Definition normalizeSearch (req : SearchRequest) : SearchRequest :=
  let req := NormalizePagination req in
  if negb (String.eqb (SortOrder req) "asc")
     && negb (String.eqb (SortOrder req) "desc")
  then mkSearchRequest (Query req) (ContentType_ req) (Page req) (PageSize req)
         (SortBy req) "desc"
  else req.

Definition searchCacheKey (req : SearchRequest) : string :=
  generateCacheKey (normalizeSearch req).

(** The cache-hit branch of [ContentService.Search], for the entry
    [cached] found under the key; [None] is a run-time panic. *)
Definition searchCacheHit (req : SearchRequest) (cached : slice Content)
  : option SearchResponse :=
  let req := normalizeSearch req in
  let total := len cached in
  let totalPages :=
    Z.quot (GoInt.sub (GoInt.add total (PageSize req)) 1) (PageSize req) in
  match paginateCachedResults cached (Page req) (PageSize req) with
  | Some paginatedCached =>
      Some (mkSearchResponse paginatedCached total (Page req) (PageSize req)
              totalPages)
  | None => None
  end.

(* ===================================================================== *)
(** ** Running a breaker through a sequence of operations                 *)
(* ===================================================================== *)

(** A completed operation on a breaker, as a client issues it. *)
Inductive breakerOp (W : Type) : Type :=
| OpExecute (now later : GoTime.Time) (fn : W -> W * option error)
| OpReset.
Arguments OpExecute {W} now later fn.
Arguments OpReset {W}.

Definition runOp {W} (op : breakerOp W) (cb : CircuitBreaker) (w : W)
  : CircuitBreaker * W * option error :=
  match op with
  | OpExecute now later fn => Execute now later fn cb w
  | OpReset => (Reset cb, w, None)
  end.

(** The operations in turn; the errors returned are collected in order. *)
Fixpoint runOps {W} (ops : list (breakerOp W)) (cb : CircuitBreaker) (w : W)
  : CircuitBreaker * W * list (option error) :=
  match ops with
  | [] => (cb, w, [])
  | op :: ops =>
      let '(cb, w, err) := runOp op cb w in
      let '(cb, w, errs) := runOps ops cb w in
      (cb, w, err :: errs)
  end.

(** The sections of the breaker that run under its write lock; any
    interleaving of concurrent operations on one breaker is a sequence of
    these. *)
Inductive lockedSection : Type :=
| SecRecordFailure (now : GoTime.Time)
| SecRecordSuccess
| SecTransitionToHalfOpen
| SecReset.

Definition runSection (sec : lockedSection) (cb : CircuitBreaker)
  : CircuitBreaker :=
  match sec with
  | SecRecordFailure now => recordFailure now cb
  | SecRecordSuccess => recordSuccess cb
  | SecTransitionToHalfOpen => transitionToHalfOpen cb
  | SecReset => Reset cb
  end.

(** A mock whose only state is the number of times it was called. *)
Definition countingMock (result : option error) (calls : nat)
  : nat * option error := (S calls, result).

(* ===================================================================== *)
(** ** Concurrent callers of getCircuitBreaker                            *)
(* ===================================================================== *)

(** Where a goroutine stands inside [getCircuitBreaker providerName]. *)
Inductive gcbThread : Type :=
| AtLookup (providerName : string)
| AtAlloc (providerName : string)
| AtStore (providerName : string) (cb : ptr)
| Returned (cb : ptr).

(** One atomic section of one goroutine. *)
Definition gcbStep (t : gcbThread) (s : ProviderService)
  : gcbThread * ProviderService :=
  match t with
  | AtLookup providerName =>
      match lookupBreaker providerName s with
      | Some cb => (Returned cb, s)
      | None => (AtAlloc providerName, s)
      end
  | AtAlloc providerName =>
      let '(cb, s) := allocBreaker s in (AtStore providerName cb, s)
  | AtStore providerName cb => (Returned cb, storeBreaker providerName cb s)
  | Returned cb => (Returned cb, s)
  end.

(** An interleaving names, step by step, the goroutine that moves. *)
Fixpoint gcbRun (interleaving : list nat) (ts : list gcbThread)
    (s : ProviderService) : list gcbThread * ProviderService :=
  match interleaving with
  | [] => (ts, s)
  | i :: rest =>
      match ts !! i with
      | Some t =>
          let '(t, s) := gcbStep t s in gcbRun rest (<[i := t]> ts) s
      | None => gcbRun rest ts s
      end
  end.

Definition returnedPtr (t : gcbThread) : option ptr :=
  match t with
  | Returned cb => Some cb
  | _ => None
  end.

(* ===================================================================== *)
(** ** Invariants of a breaker                                            *)
(* ===================================================================== *)

(** What holds of a breaker's counters between operations: the
    configured threshold is an [int], the failure counter is not negative
    and has room for one more failure unless the breaker is open, and the
    success counter is 0 outside half-open and at most 1 inside. *)
Definition successCount_ok (cb : CircuitBreaker) : Prop :=
  (state cb <> CircuitStateHalfOpen -> successCount cb = 0)
  /\ 0 <= successCount cb <= 1.

Definition breaker_ok (cb : CircuitBreaker) : Prop :=
  GoInt.in_range (maxFailures cb)
  /\ 0 <= failureCount cb <= GoInt.max_int
  /\ (state cb <> CircuitStateOpen -> failureCount cb < GoInt.max_int)
  /\ successCount_ok cb.

(* ===================================================================== *)
(** ** Vocabulary for the orchestrator's properties                       *)
(* ===================================================================== *)

(** The representation invariant of a [ProviderService]: every pointer in
    the map of breakers is allocated, and no two names share a
    breaker. *)
Definition service_ok (s : ProviderService) : Prop :=
  (forall n p, circuitBreakers s !! n = Some p -> (p < length (breakers s))%nat)
  /\ (forall n1 n2 p,
        circuitBreakers s !! n1 = Some p -> circuitBreakers s !! n2 = Some p ->
        n1 = n2).

(** The breaker a task for [providerName] gets to work with: the stored
    one, or a new one. *)
Definition breakerOf (providerName : string) (s : ProviderService)
  : CircuitBreaker :=
  match lookupBreaker providerName s with
  | Some cb => deref s cb
  | None => NewCircuitBreaker 5 (30 * GoTime.Second)
  end.

(** How one provider's task ends when the run starts from service [s]:
    with the records it fetched, or with the error [Execute] returned. *)
Definition providerOutcome (clk : clock) (query : string)
    (contentType : option ContentType) (s : ProviderService)
    (task : string * ProviderAdapter) : slice Content + error :=
  let '(providerName, providerAdapter) := task in
  let '(now, later) := clk providerName in
  let '(_, (contents, _), cbErr) :=
    Execute now later (fetchClosure providerAdapter query contentType)
      (breakerOf providerName s) (nil_slice, None) in
  match cbErr with
  | Some e => inr e
  | None => inl contents
  end.

Definition recordsOf (o : slice Content + error) : list Content :=
  match o with
  | inl contents => elems contents
  | inr _ => []
  end.

(** The error a failed task appends to the shared list. *)
Definition labelledFailure (providerName : string) (cbErr : error) : error :=
  if String.eqb (Error cbErr) "circuit breaker is open"
  then errProviderOpen providerName
  else errProviderWrap providerName cbErr.

(** What a task with outcome [o] appends to the shared list of errors. *)
Definition recordedFailure (n : string) (o : slice Content + error)
  : list error :=
  match o with
  | inl _ => []
  | inr e => [labelledFailure n e]
  end.

Section Outcomes.
Context (clk : clock) (query : string) (contentType : option ContentType)
  (s : ProviderService).

(** The names of the providers whose task succeeds. *)
Definition succeededProviders (tasks : list (string * ProviderAdapter))
  : list string :=
  omap (fun t =>
          match providerOutcome clk query contentType s t with
          | inl _ => Some t.1
          | inr _ => None
          end) tasks.

(** The providers whose task fails, each with the error of its
    [Execute]. *)
Definition failedProviders (tasks : list (string * ProviderAdapter))
  : list (string * error) :=
  omap (fun t =>
          match providerOutcome clk query contentType s t with
          | inl _ => None
          | inr e => Some (t.1, e)
          end) tasks.

(** The records of the providers whose task succeeds, all together. *)
Definition successfulRecords (tasks : list (string * ProviderAdapter))
  : list Content :=
  tasks ≫= (fun t => recordsOf (providerOutcome clk query contentType s t)).

(** The errors the failing tasks append, in the order of [tasks]. *)
Definition recordedFailures (tasks : list (string * ProviderAdapter))
  : list error :=
  tasks ≫= (fun t =>
    recordedFailure t.1 (providerOutcome clk query contentType s t)).

End Outcomes.

(** An error message that contains the labelled message of a cause. *)
Definition carries (aggregate : error) (providerName : string) (cause : error)
  : Prop :=
  exists before after,
    Error aggregate
    = before +:+ ("provider " +:+ providerName +:+ ": " +:+ Error cause)
        +:+ after.

(** Partial success as the specification words it: some provider
    succeeds, so the union of the successes comes back with no error. *)
Definition partial_success_as_specified (sched : scheduler) (clk : clock)
    (query : string) (contentType : option ContentType) (s : ProviderService)
  : Prop :=
  let tasks := map_to_list (registry s) in
  (1 <= length tasks)%nat ->
  (1 <= length (succeededProviders clk query contentType s tasks))%nat ->
  exists recs,
    (FetchFromAllProviders sched clk query contentType s).1 = (recs, None)
    /\ elems recs ≡ₚ successfulRecords clk query contentType s tasks.

(* ===================================================================== *)
(** ** Sample providers                                                   *)
(* ===================================================================== *)

Definition sampleContent : Content :=
  {| ID := 0; ProviderID := "p1_1"; Provider := "provider1";
     Title := "Content 1"; Type_ := ContentTypeVideo;
     Views := 100; Likes := 10; ReadingTime := 0; Reactions := 0 |}.

(** A provider that answers with one record. *)
Definition oneRecordAdapter : ProviderAdapter :=
  mkProviderAdapter "provider1" 60 (fun _ _ => (mk_slice [sampleContent], None)).

(** A provider that answers, and has nothing for the query. *)
Definition noMatchAdapter : ProviderAdapter :=
  mkProviderAdapter "provider1" 60 (fun _ _ => (mk_slice [], None)).

(** A provider that cannot be reached. *)
Definition downAdapter : ProviderAdapter :=
  mkProviderAdapter "provider2" 60
    (fun _ _ => (nil_slice, Some (errors_New "provider error"))).

Definition sampleClock : clock := fun _ => (1000, 1001).

Definition inOrder : scheduler := fun tasks => tasks.

Definition serviceOneUpOneDown : ProviderService :=
  NewProviderService
    (Register "provider2" downAdapter
       (Register "provider1" oneRecordAdapter NewAdapterRegistry)).

Definition serviceNoMatchOneDown : ProviderService :=
  NewProviderService
    (Register "provider2" downAdapter
       (Register "provider1" noMatchAdapter NewAdapterRegistry)).

Definition serviceAllDown : ProviderService :=
  NewProviderService
    (Register "provider2" downAdapter
       (Register "provider1" downAdapter NewAdapterRegistry)).

(* ===================================================================== *)
(** ** Vocabulary for the remaining properties                            *)
(* ===================================================================== *)

(** The test by which [FetchFromAllProviders] takes an error returned by
    [Execute] for the breaker's rejection: it compares the message. *)
Definition classifiedAsBreakerOpen (cbErr : error) : bool :=
  String.eqb (Error cbErr) "circuit breaker is open".

(** Telling rejections and call failures apart, as the specification
    words it, for one call of [Execute]: a rejection is classified as the
    breaker's, and an admitted call returns the error of the wrapped
    function, which is never classified as the breaker's. *)
Definition told_apart_as_specified {W : Type} (now later : GoTime.Time)
    (fn : W -> W * option error) (cb : CircuitBreaker) (w : W) : Prop :=
  let result := (Execute now later fn cb w).2 in
  match Execute_admit now cb with
  | inr _ =>
      exists rejection,
        result = Some rejection /\ classifiedAsBreakerOpen rejection = true
  | inl _ =>
      result = (fn w).2
      /\ forall failure,
           result = Some failure -> classifiedAsBreakerOpen failure = false
  end.

(** The page that slice semantics asks for: the records from index
    [(page - 1) * pageSize] on, [pageSize] of them at most. *)
Definition pageOf (cached : slice Content) (page pageSize : Z) : list Content :=
  take (Z.to_nat pageSize) (drop (Z.to_nat ((page - 1) * pageSize)) (elems cached)).

(** Pagination of a cache hit as the specification words it. *)
Definition pagination_as_specified (cached : slice Content) (page pageSize : Z)
  : Prop :=
  1 <= page -> 1 <= pageSize ->
  exists items,
    paginateCachedResults cached page pageSize = Some items
    /\ elems items = pageOf cached page pageSize.

Definition threeRecords : slice Content :=
  mk_slice [sampleContent; sampleContent; sampleContent].

(* ===================================================================== *)
(** ** internal/infrastructure/cache: InMemoryCache                       *)
(* ===================================================================== *)

(** Instants are compared and moved as [time.Time] does it. *)
Definition Time_After (t u : GoTime.Time) : bool := u <? t.
Definition Time_Before (t u : GoTime.Time) : bool := t <? u.
Definition Time_IsZero (t : GoTime.Time) : bool := t =? GoTime.zero.
Definition Time_Add (t : GoTime.Time) (d : GoTime.Duration) : GoTime.Time := t + d.

Definition Minute : GoTime.Duration := 60 * GoTime.Second.
Definition Hour : GoTime.Duration := 60 * Minute.

Record cacheItem : Type := mkCacheItem {
  value : slice Content;
  expiresAt : GoTime.Time
}.

Record InMemoryCache : Type := mkInMemoryCache {
  data : gmap string cacheItem;
  ttl : GoTime.Duration;
  maxSize : Z
}.

Definition NewInMemory : InMemoryCache :=
  {| data := ∅; ttl := 5 * Minute; maxSize := 1000 |}.

Definition set_data (d : gmap string cacheItem) (c : InMemoryCache)
  : InMemoryCache := mkInMemoryCache d (ttl c) (maxSize c).

(** [hasExpiredItem], with [now] the reading of [time.Now()]. *)
Definition hasExpiredItem (now : GoTime.Time) (item : cacheItem) : bool :=
  Time_After now (expiresAt item).

(** [InMemoryCache.Get]: the value and whether it was found, and the
    cache afterwards (an expired entry is deleted on the way). *)
Definition InMemoryCache_Get (now : GoTime.Time) (key : string)
    (c : InMemoryCache) : (slice Content * bool) * InMemoryCache :=
  match data c !! key with
  | None => ((nil_slice, false), c)
  | Some item =>
      if hasExpiredItem now item
      then ((nil_slice, false), set_data (delete key (data c)) c)
      else ((value item, true), c)
  end.

Definition isCacheFullLocked (c : InMemoryCache) : bool :=
  maxSize c <=? Z.of_nat (size (data c)).

(** The loop of [evictOldestEntryLocked] over the entries in the order
    [entries] in which the map hands them out. *)
Definition oldestEntry (entries : list (string * cacheItem))
  : string * GoTime.Time :=
  foldl (fun '(oldestKey, oldestTime) '(k, v) =>
           if Time_IsZero oldestTime || Time_Before (expiresAt v) oldestTime
           then (k, expiresAt v)
           else (oldestKey, oldestTime))
        ("", GoTime.zero) entries.

(** The order in which a [range] over the cache's map hands out its
    entries: some rearrangement of them. *)
Definition mapOrder :=
  list (string * cacheItem) -> list (string * cacheItem).

Definition evictOldestEntryLocked (order : mapOrder) (c : InMemoryCache)
  : InMemoryCache :=
  let '(oldestKey, _) := oldestEntry (order (map_to_list (data c))) in
  if negb (String.eqb oldestKey "")
  then set_data (delete oldestKey (data c)) c
  else c.

(** [InMemoryCache.Set]; the error it returns is always nil. *)
Definition InMemoryCache_Set (order : mapOrder) (now : GoTime.Time)
    (key : string) (v : slice Content) (ttl_ : GoTime.Duration)
    (c : InMemoryCache) : InMemoryCache :=
  let ttl_ := if ttl_ =? 0 then ttl c else ttl_ in
  let c := if isCacheFullLocked c then evictOldestEntryLocked order c else c in
  set_data (<[key := mkCacheItem v (Time_Add now ttl_)]> (data c)) c.

Definition InMemoryCache_Delete (key : string) (c : InMemoryCache)
  : InMemoryCache := set_data (delete key (data c)) c.

Definition InMemoryCache_Clear (c : InMemoryCache) : InMemoryCache :=
  set_data ∅ c.

(* ===================================================================== *)
(** ** internal/api/handler: preparing the request                        *)
(* ===================================================================== *)

(** The check both handlers make on the bound content type: anything but
    "video" and "text" is dropped. *)
Definition sanitizeContentType (ct : option ContentType)
  : option ContentType :=
  match ct with
  | Some ct =>
      if String.eqb ct ""
         || (negb (String.eqb ct ContentTypeVideo)
             && negb (String.eqb ct ContentTypeText))
      then None
      else Some ct
  | None => None
  end.

(** What [ContentHandler.Search] does to the bound request before it
    calls the service. *)
Definition handlerPrepare (req : SearchRequest) : SearchRequest :=
  NormalizePagination
    (mkSearchRequest (Query req) (sanitizeContentType (ContentType_ req))
       (Page req) (PageSize req) (SortBy req) (SortOrder req)).


(* ===================================================================== *)
(** ** internal/domain: the recency boost                                 *)
(* ===================================================================== *)

Definition isWithinWeek (age : GoTime.Duration) : bool := age <=? 7 * 24 * Hour.
Definition isWithinMonth (age : GoTime.Duration) : bool := age <=? 30 * 24 * Hour.
Definition isWithinThreeMonths (age : GoTime.Duration) : bool :=
  age <=? 90 * 24 * Hour.

(** [RecentContentBoostSpecification.Calculate] for a record created at
    [createdAt]; the results 5.0, 3.0, 1.0 and 0.0 are written as the
    integers they are. *)
Definition RecentContentBoost (now createdAt : GoTime.Time) : Z :=
  let age := GoTime.Sub now createdAt in
  if isWithinWeek age then 5
  else if isWithinMonth age then 3
  else if isWithinThreeMonths age then 1
  else 0.

(* ===================================================================== *)
(** ** Vocabulary for further properties                                  *)
(* ===================================================================== *)

Definition set_halfOpenTimeout (h : GoTime.Duration) (cb : CircuitBreaker) :=
  mkCircuitBreaker (maxFailures cb) (resetTimeout cb) h
    (state cb) (failureCount cb) (lastFailureTime cb) (successCount cb).

(** The breaker of a provider after its task of one run. *)
Definition breakerAfter (clk : clock) (query : string)
    (contentType : option ContentType) (s : ProviderService)
    (task : string * ProviderAdapter) : CircuitBreaker :=
  let '(providerName, providerAdapter) := task in
  (Execute (clk providerName).1 (clk providerName).2
     (fetchClosure providerAdapter query contentType)
     (breakerOf providerName s) (nil_slice, None)).1.1.

(** Several runs of [FetchFromAllProviders] for the same query, one after
    the other, each with its own schedule and clock readings. *)
Definition fetchRounds (query : string) (contentType : option ContentType)
    (rounds : list (scheduler * clock)) (s : ProviderService)
  : ProviderService :=
  foldl (fun s '(sched, clk) =>
           (FetchFromAllProviders sched clk query contentType s).2)
        s rounds.

(** A string without a colon. *)
Fixpoint colonFree (x : string) : bool :=
  match x with
  | EmptyString => true
  | String c x => negb (Ascii.eqb c ":") && colonFree x
  end.

(** The filter as it appears in a cache key. *)
Definition filterOrAll (req : SearchRequest) : string :=
  match ContentType_ req with Some ct => ct | None => "all" end.

(** The four fields a cache key is made of. *)
Definition keyFields (req : SearchRequest) : string * string * string * string :=
  (Query req, filterOrAll req, SortBy req,
   if String.eqb (SortOrder req) "" then "desc" else SortOrder req).

(** The calls one provider's breaker sees over several rounds. *)
Definition roundCalls (a : ProviderAdapter) (q : string)
    (ct : option ContentType) (n : string) (rounds : list (scheduler * clock))
  : list (breakerOp (slice Content * option error)) :=
  map (fun r => OpExecute (r.2 n).1 (r.2 n).2 (fetchClosure a q ct)) rounds.

(** The first half of C3 as the specification words it: [maxFailures]
    calls in a row that return an error open a closed breaker. *)
Definition opens_after_maxFailures_as_specified {W : Type}
    (cb : CircuitBreaker) (calls : list (breakerOp W)) (w : W) : Prop :=
  breaker_ok cb ->
  state cb = CircuitStateClosed ->
  Z.of_nat (length calls) = maxFailures cb ->
  Forall is_Some (runOps calls cb w).2 ->
  state (runOps calls cb w).1.1 = CircuitStateOpen.

(** Three cached records that can be told apart. *)
Definition itemNumber (n : Z) (title : string) : Content :=
  {| ID := n; ProviderID := title; Provider := "provider1";
     Title := title; Type_ := ContentTypeText;
     Views := 0; Likes := 0; ReadingTime := n; Reactions := 0 |}.

Definition threeItems : slice Content :=
  mk_slice [itemNumber 1 "Item 1"; itemNumber 2 "Item 2"; itemNumber 3 "Item 3"].

(** The boost the recency rule gives to a record of the given age. *)
Definition boostOfAge (age : Z) : Z :=
  if age <=? 7 * 24 * Hour then 5
  else if age <=? 30 * 24 * Hour then 3
  else if age <=? 90 * 24 * Hour then 1
  else 0.

(* ===================================================================== *)
(** * Properties                                                          *)
(* ===================================================================== *)

(** ** Arithmetic of the base types *)

Lemma GoInt_wrap_in_range z : GoInt.in_range (GoInt.wrap z).
Proof.
  unfold GoInt.in_range, GoInt.wrap, GoInt.min_int, GoInt.max_int.
  pose proof (Z.mod_pos_bound (z + 2 ^ 63) (2 ^ 64) ltac:(lia)). lia.
Qed.

Lemma GoInt_wrap_id z : GoInt.in_range z -> GoInt.wrap z = z.
Proof.
  unfold GoInt.in_range, GoInt.wrap, GoInt.min_int, GoInt.max_int. intros Hz.
  rewrite Z.mod_small by lia. lia.
Qed.

Lemma GoInt_add_id a b : GoInt.in_range (a + b) -> GoInt.add a b = a + b.
Proof. apply GoInt_wrap_id. Qed.

Lemma GoTime_saturate_id d : GoInt.in_range d -> GoTime.saturate d = d.
Proof.
  unfold GoInt.in_range, GoTime.saturate. intros [Hlo Hhi].
  destruct (Z.ltb_spec d GoInt.min_int); [lia|].
  destruct (Z.ltb_spec GoInt.max_int d); [lia|]. reflexivity.
Qed.

Lemma elems_append {A} (s : slice A) xs : elems (append s xs) = elems s ++ xs.
Proof. destruct xs; simpl; [by rewrite app_nil_r | done]. Qed.

(** ** The circuit breaker *)

Ltac breaker_cases :=
  repeat match goal with
  | |- context [Z.leb ?a ?b] => destruct (Z.leb_spec a b)
  | |- context [Z.ltb ?a ?b] => destruct (Z.ltb_spec a b)
  | H : context [Z.leb ?a ?b] |- _ => destruct (Z.leb_spec a b)
  | H : context [Z.ltb ?a ?b] |- _ => destruct (Z.ltb_spec a b)
  end.

Ltac unfold_breaker :=
  unfold Execute, Execute_admit, getState, recordFailure, recordSuccess,
    transitionToHalfOpen, Reset, set_successCount, set_failureCount,
    set_state, set_lastFailureTime in *; simpl in *.

Lemma NewCircuitBreaker_successCount_ok m r :
  successCount_ok (NewCircuitBreaker m r).
Proof. split; simpl; [done | lia]. Qed.

Lemma NewCircuitBreaker_ok m r :
  GoInt.in_range m -> breaker_ok (NewCircuitBreaker m r).
Proof.
  intros [Hlo Hhi]. unfold breaker_ok, successCount_ok, GoInt.in_range. simpl.
  unfold GoInt.max_int. repeat split; (done || lia).
Qed.

Lemma runSection_successCount_ok sec cb :
  successCount_ok cb -> successCount_ok (runSection sec cb).
Proof.
  destruct cb as [m r h st fc lf sc]. unfold successCount_ok. simpl.
  intros [Hz Hr].
  assert (Hw : GoInt.wrap (sc + 1) = sc + 1)
    by (apply GoInt_wrap_id;
        unfold GoInt.in_range, GoInt.min_int, GoInt.max_int; lia).
  destruct sec, st; unfold runSection; unfold_breaker; unfold GoInt.add;
    rewrite ?Hw;
    breaker_cases; simpl;
    (split; [first [done | intros _; lia | intros _; apply Hz; done] | lia]).
Qed.

Lemma Execute_sections {W} now later (fn : W -> W * option error) cb w :
  exists secs,
    (Execute now later fn cb w).1.1 = foldl (fun c s => runSection s c) cb secs.
Proof.
  unfold Execute, Execute_admit, getState.
  destruct (state cb) eqn:Hst.
  - destruct (fn w) as [w' [e|]].
    + by exists [SecRecordFailure later].
    + by exists [SecRecordSuccess].
  - destruct (resetTimeout cb <=? _).
    + destruct (fn w) as [w' [e|]].
      * by exists [SecTransitionToHalfOpen; SecRecordFailure later].
      * by exists [SecTransitionToHalfOpen; SecRecordSuccess].
    + by exists [].
  - destruct (fn w) as [w' [e|]].
    + by exists [SecRecordFailure later].
    + by exists [SecRecordSuccess].
Qed.

Lemma runSections_successCount_ok secs cb :
  successCount_ok cb ->
  successCount_ok (foldl (fun c s => runSection s c) cb secs).
Proof.
  revert cb. induction secs as [|sec secs IH]; intros cb Hcb; simpl; [done|].
  apply IH. by apply runSection_successCount_ok.
Qed.

Lemma Execute_successCount_ok {W} now later (fn : W -> W * option error) cb w :
  successCount_ok cb -> successCount_ok (Execute now later fn cb w).1.1.
Proof.
  intros Hcb. destruct (Execute_sections now later fn cb w) as [secs ->].
  by apply runSections_successCount_ok.
Qed.

Lemma runOps_successCount_ok {W} (ops : list (breakerOp W)) cb w :
  successCount_ok cb -> successCount_ok (runOps ops cb w).1.1.
Proof.
  revert cb w. induction ops as [|op ops IH]; intros cb w Hcb; simpl; [done|].
  destruct (runOp op cb w) as [[cb1 w1] e1] eqn:Hop.
  specialize (IH cb1 w1).
  destruct (runOps ops cb1 w1) as [[cb2 w2] errs]. simpl in *.
  apply IH. destruct op; simpl in Hop.
  - pose proof (Execute_successCount_ok now later fn cb w Hcb) as H.
    by rewrite Hop in H.
  - inversion Hop; subst. by apply (runSection_successCount_ok SecReset).
Qed.

Ltac use_state_facts :=
  repeat match goal with
  | H : ?a <> ?b -> _ |- _ =>
      first [specialize (H ltac:(discriminate)) | clear H]
  end.

Lemma Execute_ok {W} now later (fn : W -> W * option error) cb w :
  breaker_ok cb -> breaker_ok (Execute now later fn cb w).1.1.
Proof.
  destruct cb as [m r h st fc lf sc].
  unfold breaker_ok, successCount_ok, GoInt.in_range. simpl.
  intros (Hm & Hfc & Hroom & Hz & Hsc).
  assert (Hw : GoInt.add sc 1 = sc + 1)
    by (apply GoInt_wrap_id;
        unfold GoInt.in_range, GoInt.min_int, GoInt.max_int; lia).
  assert (Hwf : st <> CircuitStateOpen -> GoInt.add fc 1 = fc + 1).
  { intros Hst. apply GoInt_wrap_id. specialize (Hroom Hst).
    unfold GoInt.in_range, GoInt.min_int, GoInt.max_int in *. lia. }
  unfold GoInt.max_int, GoInt.min_int in *.
  destruct st; use_state_facts; unfold_breaker; breaker_cases; simpl;
    destruct (fn w) as [w' [e|]]; simpl;
    rewrite ?Hw, ?Hwf in *; breaker_cases; simpl;
    repeat split; try done; try lia; intros _; lia.
Qed.

Lemma Execute_maxFailures {W} now later (fn : W -> W * option error) cb w :
  maxFailures (Execute now later fn cb w).1.1 = maxFailures cb.
Proof.
  destruct cb as [m r h st fc lf sc].
  destruct st; unfold_breaker; breaker_cases; simpl;
    destruct (fn w) as [w' [e|]]; simpl; breaker_cases; done.
Qed.

(** A failing call leaves a closed or open breaker closed or open, and
    closed only by counting one more failure below the threshold. *)
Lemma Execute_failing_step {W} now later (fn : W -> W * option error) cb w :
  breaker_ok cb ->
  state cb <> CircuitStateHalfOpen ->
  is_Some (Execute now later fn cb w).2 ->
  let cb' := (Execute now later fn cb w).1.1 in
  state cb' = CircuitStateOpen
  \/ (state cb' = CircuitStateClosed /\ state cb = CircuitStateClosed
      /\ failureCount cb' = failureCount cb + 1
      /\ failureCount cb' < maxFailures cb).
Proof.
  destruct cb as [m r h st fc lf sc].
  unfold breaker_ok, successCount_ok, GoInt.in_range. simpl.
  intros (Hm & Hfc & Hroom & Hz & Hsc) Hst Hfail.
  assert (Hwf : st <> CircuitStateOpen -> GoInt.wrap (fc + 1) = fc + 1).
  { intros Hst'. apply GoInt_wrap_id. specialize (Hroom Hst').
    unfold GoInt.in_range, GoInt.min_int, GoInt.max_int in *. lia. }
  destruct st; [| |done]; unfold_breaker; breaker_cases; simpl in *;
    destruct (fn w) as [w' [e|]]; simpl in *; unfold GoInt.add in *;
    rewrite ?Hwf in * by done; breaker_cases; simpl;
    try (by left); try (by destruct Hfail).
  right. repeat split; try done; lia.
Qed.

Lemma runOps_cons {W} (op : breakerOp W) ops cb w :
  runOps (op :: ops) cb w =
  let r := runOp op cb w in
  let rs := runOps ops r.1.1 r.1.2 in
  (rs.1.1, rs.1.2, r.2 :: rs.2).
Proof.
  simpl. destruct (runOp op cb w) as [[cb1 w1] e1]. simpl.
  by destruct (runOps ops cb1 w1) as [[cb2 w2] errs].
Qed.

Lemma runOp_failing_is_Execute {W} (op : breakerOp W) cb w :
  is_Some (runOp op cb w).2 ->
  exists now later fn, op = OpExecute now later fn.
Proof.
  destruct op; simpl; [eauto | by intros [? ?]].
Qed.

Lemma runOps_failing {W} (ops : list (breakerOp W)) cb w :
  breaker_ok cb ->
  state cb <> CircuitStateHalfOpen ->
  Forall is_Some (runOps ops cb w).2 ->
  let cb' := (runOps ops cb w).1.1 in
  breaker_ok cb' /\ maxFailures cb' = maxFailures cb
  /\ (ops <> [] -> state cb' = CircuitStateOpen
      \/ (state cb' = CircuitStateClosed /\ state cb = CircuitStateClosed
          /\ failureCount cb' = failureCount cb + Z.of_nat (length ops)
          /\ failureCount cb' < maxFailures cb)).
Proof.
  revert cb w. induction ops as [|op ops IH]; intros cb w Hok Hst Hall.
  { simpl. split; [done|]. split; [done|]. intros Hne. by destruct Hne. }
  rewrite runOps_cons in Hall |- *. simpl in Hall |- *.
  apply Forall_cons in Hall as [Hop Hrest].
  destruct (runOp_failing_is_Execute op cb w Hop) as (now & later & fn & ->).
  simpl in *.
  pose proof (Execute_ok now later fn cb w Hok) as Hok1.
  pose proof (Execute_maxFailures now later fn cb w) as Hmax1.
  pose proof (Execute_failing_step now later fn cb w Hok Hst Hop) as Hstep.
  simpl in Hstep.
  set (r := Execute now later fn cb w) in *.
  assert (Hst1 : state r.1.1 <> CircuitStateHalfOpen)
    by (destruct Hstep as [-> | (-> & _)]; done).
  destruct (IH r.1.1 r.1.2 Hok1 Hst1 Hrest) as (Hok2 & Hmax2 & Hfin).
  split; [done|]. split; [congruence|]. intros _.
  destruct ops as [|op' ops'].
  { simpl. destruct Hstep as [?|(? & ? & ? & ?)]; [by left | right].
    repeat split; try done; lia. }
  destruct (Hfin ltac:(done)) as [?|(Hc2 & Hc1 & Hfc2 & Hlt2)]; [by left|].
  destruct Hstep as [Ho | (_ & Hc0 & Hfc1 & Hlt1)]; [congruence|].
  right. repeat split; try done.
  - rewrite Hfc2, Hfc1. simpl length. lia.
  - lia.
Qed.

Lemma Reset_ok cb : breaker_ok cb -> breaker_ok (Reset cb).
Proof.
  intros (Hm & _). unfold breaker_ok, successCount_ok, GoInt.max_int. simpl.
  split_and!; (done || lia).
Qed.

(** The invariant holds between the operations of any client. *)
Lemma runOps_ok {W} (ops : list (breakerOp W)) cb w :
  breaker_ok cb -> breaker_ok (runOps ops cb w).1.1.
Proof.
  revert cb w. induction ops as [|op ops IH]; intros cb w Hok; [done|].
  rewrite runOps_cons. simpl. apply IH. destruct op; simpl.
  - by apply Execute_ok.
  - by apply Reset_ok.
Qed.

Lemma Execute_rejects_while_open {W} now later (fn : W -> W * option error)
    cb w :
  state cb = CircuitStateOpen ->
  GoTime.Since now (lastFailureTime cb) < resetTimeout cb ->
  Execute now later fn cb w = (cb, w, Some (errors_New circuit_open_message)).
Proof.
  intros Hst Hlt. unfold Execute, Execute_admit, getState. rewrite Hst.
  destruct (Z.leb_spec (resetTimeout cb) (GoTime.Since now (lastFailureTime cb)));
    [lia | done].
Qed.

(** C3, as the specification words it, fails for a breaker made with
    [maxFailures = 0]: after its 0 failing calls it is as closed as it
    was made. *)
Lemma opens_after_maxFailures_as_specified_fails :
  ~ opens_after_maxFailures_as_specified
      (NewCircuitBreaker 0 (30 * GoTime.Second)) (@nil (breakerOp nat)) 0%nat.
Proof.
  intros Hclaim.
  assert (Hopen : state (NewCircuitBreaker 0 (30 * GoTime.Second))
                  = CircuitStateOpen).
  { apply Hclaim.
    - apply NewCircuitBreaker_ok. vm_compute. split; discriminate.
    - reflexivity.
    - reflexivity.
    - constructor. }
  discriminate Hopen.
Qed.

(** C3, amended.  A closed breaker is open after [n] calls in a row that
    return an error, for every [n >= 1] that is at least [maxFailures]:
    after [maxFailures] of them when [maxFailures >= 1], after the first
    one when it is not.  And an open breaker asked to [Execute] before
    [resetTimeout] has passed since its last failure answers with the
    "circuit breaker is open" error, leaving itself and the world of the
    wrapped function, which it does not call, as they were. *)
Theorem breaker_opens_after_maxFailures_and_rejects {W : Type}
    (cb : CircuitBreaker) (calls : list (breakerOp W)) (w : W) :
  breaker_ok cb ->
  state cb = CircuitStateClosed ->
  (1 <= length calls)%nat ->
  maxFailures cb <= Z.of_nat (length calls) ->
  Forall is_Some (runOps calls cb w).2 ->
  state (runOps calls cb w).1.1 = CircuitStateOpen
  /\ forall (V : Type) (opened : CircuitBreaker) (now later : GoTime.Time)
       (fn : V -> V * option error) (v : V),
       state opened = CircuitStateOpen ->
       GoTime.Since now (lastFailureTime opened) < resetTimeout opened ->
       Execute now later fn opened v
       = (opened, v, Some (errors_New circuit_open_message)).
Proof.
  intros Hok Hst Hone Hlen Hall. split.
  - assert (Hst' : state cb <> CircuitStateHalfOpen) by (by rewrite Hst).
    destruct (runOps_failing calls cb w Hok Hst' Hall) as (_ & _ & Hfin).
    destruct Hfin as [Hopen | (_ & _ & Hfc & Hlt)]; [|done|].
    + intros ->. simpl in Hone. lia.
    + destruct Hok as (_ & Hfc0 & _). lia.
  - intros V opened now later fn v. apply Execute_rejects_while_open.
Qed.

Lemma breaker_opens_after_maxFailures_and_rejects_witness :
  let failing := OpExecute 10 11 (countingMock (Some (errors_New "timeout"))) in
  let cb := NewCircuitBreaker 2 (30 * GoTime.Second) in
  state (runOps [failing; failing] cb 0%nat).1.1 = CircuitStateOpen
  /\ forall (V : Type) (opened : CircuitBreaker) (now later : GoTime.Time)
       (fn : V -> V * option error) (v : V),
       state opened = CircuitStateOpen ->
       GoTime.Since now (lastFailureTime opened) < resetTimeout opened ->
       Execute now later fn opened v
       = (opened, v, Some (errors_New circuit_open_message)).
Proof.
  intros failing cb.
  apply (breaker_opens_after_maxFailures_and_rejects cb [failing; failing] 0%nat).
  - apply NewCircuitBreaker_ok. vm_compute. split; discriminate.
  - reflexivity.
  - simpl. lia.
  - simpl. lia.
  - vm_compute. repeat constructor; eexists; reflexivity.
Defined.

(** The mock of the specification's test: two failures open a breaker
    with threshold 2, and the third call, one second later, leaves the
    mock's call counter at 2. *)
Example breaker_open_call_counter :
  let failing t := OpExecute t t (countingMock (Some (errors_New "timeout"))) in
  let cb := NewCircuitBreaker 2 (30 * GoTime.Second) in
  let '(opened, count, _) := runOps [failing 10; failing 20] cb 0%nat in
  state opened = CircuitStateOpen /\ count = 2%nat
  /\ Execute (20 + GoTime.Second) (20 + GoTime.Second)
       (countingMock (Some (errors_New "timeout"))) opened count
     = (opened, 2%nat, Some (errors_New "circuit breaker is open")).
Proof. vm_compute. done. Qed.

(** C4.  For an open breaker whose [resetTimeout] has passed since the
    last failure, [Execute] first moves to half-open with both counters
    at 0 and then calls the wrapped function once, recording its result
    from there.  From half-open, two calls in a row that succeed leave
    the breaker closed, and one call that fails leaves it open with
    failure count 1 and success count 0. *)
Theorem breaker_probe_recovers_or_reopens {W : Type} (cb : CircuitBreaker) :
  breaker_ok cb ->
  (forall now later (fn : W -> W * option error) w,
      state cb = CircuitStateOpen ->
      resetTimeout cb <= GoTime.Since now (lastFailureTime cb) ->
      exists probing,
        Execute_admit now cb = inl probing
        /\ state probing = CircuitStateHalfOpen
        /\ failureCount probing = 0 /\ successCount probing = 0
        /\ Execute now later fn cb w
           = (match (fn w).2 with
              | Some _ => recordFailure later probing
              | None => recordSuccess probing
              end, (fn w).1, (fn w).2))
  /\ (forall now1 later1 (fn1 : W -> W * option error)
             now2 later2 (fn2 : W -> W * option error) w,
      state cb = CircuitStateHalfOpen ->
      let r1 := Execute now1 later1 fn1 cb w in
      let r2 := Execute now2 later2 fn2 r1.1.1 r1.1.2 in
      r1.2 = None -> r2.2 = None ->
      state r2.1.1 = CircuitStateClosed)
  /\ (forall now later (fn : W -> W * option error) w,
      state cb = CircuitStateHalfOpen ->
      let r := Execute now later fn cb w in
      is_Some r.2 ->
      state r.1.1 = CircuitStateOpen
      /\ failureCount r.1.1 = 1 /\ successCount r.1.1 = 0).
Proof.
  destruct cb as [m r h st fc lf sc].
  unfold breaker_ok, successCount_ok, GoInt.in_range. simpl.
  intros (Hm & Hfc & Hroom & Hz & Hsc).
  split; [|split].
  - intros now later fn w -> Hel. eexists. unfold_breaker.
    destruct (Z.leb_spec r (GoTime.Since now lf)); [|lia].
    split; [reflexivity|]. simpl. repeat split.
    by destruct (fn w) as [w' [e|]].
  - intros now1 later1 fn1 now2 later2 fn2 w ->. unfold_breaker.
    destruct (fn1 w) as [w1 [e1|]]; simpl; [done|]. intros _.
    assert (Hsc' : sc = 0 \/ sc = 1) by lia.
    destruct Hsc' as [-> | ->]; simpl;
      destruct (fn2 w1) as [w2 [e2|]]; simpl; done.
  - intros now later fn w ->. unfold_breaker.
    destruct (fn w) as [w' [e|]]; simpl; [done|]. by intros [? ?].
Qed.

Lemma breaker_probe_recovers_or_reopens_witness :
  let cb := recordFailure 100 (NewCircuitBreaker 1 (30 * GoTime.Second)) in
  state cb = CircuitStateOpen
  /\ (Execute (100 + 30 * GoTime.Second) (101 + 30 * GoTime.Second)
        (countingMock None) cb 0%nat).1.2 = 1%nat
  /\ state (Execute (100 + 30 * GoTime.Second) (101 + 30 * GoTime.Second)
        (countingMock None) cb 0%nat).1.1 = CircuitStateHalfOpen.
Proof.
  intros cb.
  assert (Hok : breaker_ok cb).
  { unfold cb, breaker_ok, successCount_ok, GoInt.in_range. vm_compute.
    repeat split; (discriminate || done). }
  destruct (breaker_probe_recovers_or_reopens (W:=nat) cb Hok) as (Hopen & _ & _).
  destruct (Hopen (100 + 30 * GoTime.Second) (101 + 30 * GoTime.Second)
              (countingMock None) 0%nat eq_refl ltac:(vm_compute; discriminate))
    as (probing & Hadm & Hst & _ & _ & Hex).
  split; [reflexivity|]. rewrite Hex. simpl. split; [reflexivity|].
  vm_compute in Hadm. injection Hadm as <-. reflexivity.
Defined.

(** C10.  From construction on, after any sequence of [Execute] and
    [Reset] calls, and indeed after any sequence of the breaker's locked
    sections, the success counter is 0 unless the breaker is half-open and
    is never above 1; a positive success counter is only seen in
    half-open. *)
Theorem breaker_successCount_invariant {W : Type} (maxFailures : Z)
    (resetTimeout : GoTime.Duration) (ops : list (breakerOp W)) (w : W)
    (secs : list lockedSection) :
  let fresh := NewCircuitBreaker maxFailures resetTimeout in
  let holds cb :=
    (state cb <> CircuitStateHalfOpen -> successCount cb = 0)
    /\ successCount cb <= 1
    /\ (0 < successCount cb -> state cb = CircuitStateHalfOpen) in
  holds (runOps ops fresh w).1.1
  /\ holds (foldl (fun c s => runSection s c) fresh secs).
Proof.
  intros fresh holds.
  assert (Hholds : forall cb, successCount_ok cb -> holds cb).
  { intros cb [Hz Hr]. repeat split; [done | lia |].
    intros Hpos. destruct (decide (state cb = CircuitStateHalfOpen)); [done|].
    rewrite Hz in Hpos by done. lia. }
  split; apply Hholds.
  - apply runOps_successCount_ok, NewCircuitBreaker_successCount_ok.
  - apply runSections_successCount_ok, NewCircuitBreaker_successCount_ok.
Qed.

(** ** The registry of breakers *)

Lemma NewProviderService_ok r : service_ok (NewProviderService r).
Proof. split; simpl; intros *; by rewrite lookup_empty. Qed.

Lemma getCircuitBreaker_spec n s :
  service_ok s ->
  let '(p, s') := getCircuitBreaker n s in
  service_ok s'
  /\ registry s' = registry s
  /\ circuitBreakers s' !! n = Some p
  /\ deref s' p = breakerOf n s
  /\ (forall n', n' <> n -> breakerOf n' s' = breakerOf n' s).
Proof.
  intros [Hbound Hinj].
  unfold getCircuitBreaker, breakerOf, lookupBreaker, deref.
  destruct (circuitBreakers s !! n) as [p|] eqn:Hn.
  { repeat split; done. }
  simpl. repeat split; simpl.
  - intros n0 p0. destruct (decide (n0 = n)) as [->|Hne].
    + rewrite lookup_insert_eq. intros [= <-]. rewrite length_app. simpl. lia.
    + rewrite lookup_insert_ne by done. intros H%Hbound.
      rewrite length_app. simpl. lia.
  - intros n1 n2 p0.
    destruct (decide (n1 = n)) as [->|Hne1], (decide (n2 = n)) as [->|Hne2];
      rewrite ?lookup_insert_eq, ?lookup_insert_ne by done; try done.
    + intros [= <-] H%Hbound. lia.
    + intros H%Hbound [= <-]. lia.
    + apply Hinj.
  - by rewrite lookup_insert_eq.
  - rewrite lookup_total_app_r by done. by rewrite Nat.sub_diag.
  - intros n' Hne. rewrite lookup_insert_ne by done.
    destruct (circuitBreakers s !! n') as [p'|] eqn:Hn'; [|done].
    apply Hbound in Hn'. by rewrite lookup_total_app_l.
Qed.

Lemma assign_spec n p cb s :
  service_ok s ->
  circuitBreakers s !! n = Some p ->
  service_ok (assign p cb s)
  /\ registry (assign p cb s) = registry s
  /\ breakerOf n (assign p cb s) = cb
  /\ (forall n', n' <> n -> breakerOf n' (assign p cb s) = breakerOf n' s).
Proof.
  intros [Hbound Hinj] Hn. unfold assign, breakerOf, lookupBreaker, deref.
  simpl. repeat split; simpl.
  - intros n0 p0 H%Hbound. by rewrite length_insert.
  - done.
  - rewrite Hn. apply list_lookup_total_insert_eq. by apply Hbound in Hn.
  - intros n' Hne. destruct (circuitBreakers s !! n') as [p'|] eqn:Hn'; [|done].
    apply list_lookup_total_insert_ne. intros <-. apply Hne. by eapply Hinj.
Qed.

(** ** One task *)

Lemma providerTask_spec clk q ct st n a :
  service_ok (svc st) ->
  let st' := providerTask clk q ct st (n, a) in
  let o := providerOutcome clk q ct (svc st) (n, a) in
  service_ok (svc st')
  /\ registry (svc st') = registry (svc st)
  /\ (forall n', n' <> n -> breakerOf n' (svc st') = breakerOf n' (svc st))
  /\ allContents st' = append (allContents st) (recordsOf o)
  /\ errors st' = append (errors st) (recordedFailure n o).
Proof.
  intros Hok. unfold providerTask, providerOutcome.
  pose proof (getCircuitBreaker_spec n (svc st) Hok) as Hget.
  destruct (getCircuitBreaker n (svc st)) as [p s1].
  destruct Hget as (Hok1 & Hreg1 & Hp & Hderef & Hframe1).
  destruct (clk n) as [now later]. rewrite Hderef.
  destruct (Execute now later (fetchClosure a q ct) (breakerOf n (svc st))
              (nil_slice, None)) as [[cb' [contents err]] cbErr].
  destruct (assign_spec n p cb' s1 Hok1 Hp) as (Hok2 & Hreg2 & _ & Hframe2).
  assert (Hframe : forall n', n' <> n ->
            breakerOf n' (assign p cb' s1) = breakerOf n' (svc st)).
  { intros n' Hne. rewrite Hframe2, Hframe1 by done. done. }
  destruct cbErr as [e|]; simpl.
  - unfold labelledFailure.
    destruct (String.eqb (Error e) "circuit breaker is open"); simpl;
      split_and!; (done || congruence).
  - split_and!; (done || congruence).
Qed.

Lemma providerOutcome_frame clk q ct s1 s2 n a :
  breakerOf n s1 = breakerOf n s2 ->
  providerOutcome clk q ct s1 (n, a) = providerOutcome clk q ct s2 (n, a).
Proof. unfold providerOutcome. by intros ->. Qed.

(** ** All tasks in turn *)

Section Fold.
Context (clk : clock) (q : string) (ct : option ContentType).

Lemma outcomes_frame s1 s2 (tasks : list (string * ProviderAdapter)) :
  (forall t, t ∈ tasks -> breakerOf t.1 s1 = breakerOf t.1 s2) ->
  successfulRecords clk q ct s1 tasks = successfulRecords clk q ct s2 tasks
  /\ recordedFailures clk q ct s1 tasks = recordedFailures clk q ct s2 tasks.
Proof.
  unfold successfulRecords, recordedFailures.
  induction tasks as [|[n a] tasks IH]; intros Hsame; [done|].
  destruct IH as [IH1 IH2].
  { intros t Ht. apply Hsame. by right. }
  rewrite !bind_cons, IH1, IH2.
  rewrite (providerOutcome_frame clk q ct s1 s2 n a); [done|].
  apply (Hsame (n, a)). by left.
Qed.

Lemma foldl_providerTask_spec (tasks : list (string * ProviderAdapter)) st :
  service_ok (svc st) ->
  NoDup tasks.*1 ->
  let st' := foldl (providerTask clk q ct) st tasks in
  service_ok (svc st')
  /\ registry (svc st') = registry (svc st)
  /\ elems (allContents st')
     = elems (allContents st) ++ successfulRecords clk q ct (svc st) tasks
  /\ elems (errors st')
     = elems (errors st) ++ recordedFailures clk q ct (svc st) tasks.
Proof.
  revert st. induction tasks as [|[n a] tasks IH]; intros st Hok Hnd.
  { simpl. unfold successfulRecords, recordedFailures. simpl.
    by rewrite !app_nil_r. }
  rewrite fmap_cons in Hnd. apply NoDup_cons in Hnd as [Hn Hnd].
  cbn [foldl].
  destruct (providerTask_spec clk q ct st n a Hok)
    as (Hok1 & Hreg1 & Hframe & Hc & He).
  destruct (IH _ Hok1 Hnd) as (Hok2 & Hreg2 & Hc2 & He2).
  destruct (outcomes_frame (svc (providerTask clk q ct st (n, a))) (svc st) tasks)
    as [Hsr Hrf].
  { intros [n' a'] Ht. apply Hframe. simpl. intros ->. apply Hn.
    apply list_elem_of_fmap. by exists (n, a'). }
  split_and!; [done | congruence | |].
  - rewrite Hc2, Hc, elems_append, Hsr. unfold successfulRecords.
    by rewrite bind_cons, app_assoc.
  - rewrite He2, He, elems_append, Hrf. unfold recordedFailures.
    by rewrite bind_cons, app_assoc.
Qed.

Lemma recordedFailures_failedProviders s tasks :
  recordedFailures clk q ct s tasks
  = (fun f => labelledFailure f.1 f.2) <$> failedProviders clk q ct s tasks.
Proof.
  unfold recordedFailures, failedProviders.
  induction tasks as [|[n a] tasks IH]; [done|].
  rewrite bind_cons, IH. cbn [omap list_omap].
  by destruct (providerOutcome clk q ct s (n, a)).
Qed.

Lemma allProvidersFailed_spec recs errs :
  allProvidersFailed recs errs = true <-> elems recs = [] /\ elems errs <> [].
Proof.
  unfold allProvidersFailed, len. rewrite andb_true_iff, Z.eqb_eq, Z.ltb_lt.
  destruct (elems recs), (elems errs); simpl; split; intros [? ?];
    split; (done || lia).
Qed.

(** What [FetchFromAllProviders] returns when providers are
    registered, in terms of the scheduled tasks. *)
Lemma FetchFromAllProviders_scheduled (sched : scheduler) s :
  service_ok s ->
  (forall l, sched l ≡ₚ l) ->
  registry s <> ∅ ->
  let tasks := sched (map_to_list (registry s)) in
  exists recs errs,
    elems recs = successfulRecords clk q ct s tasks
    /\ elems errs = recordedFailures clk q ct s tasks
    /\ (FetchFromAllProviders sched clk q ct s).1
       = if allProvidersFailed recs errs
         then (nil_slice, Some (errAllProvidersFailed errs))
         else (recs, None).
Proof.
  intros Hok Hsched Hne tasks. unfold FetchFromAllProviders, hasNoAdapters, GetAll.
  rewrite bool_decide_eq_false_2 by (by rewrite map_size_empty_iff).
  fold tasks.
  assert (Hnd : NoDup tasks.*1).
  { unfold tasks. rewrite (Hsched _). apply NoDup_fst_map_to_list. }
  destruct (foldl_providerTask_spec tasks (mkFetchState s nil_slice nil_slice)
              Hok Hnd) as (_ & _ & Hc & He).
  simpl in Hc, He. cbv zeta.
  set (st := foldl (providerTask clk q ct) _ tasks) in *.
  exists (allContents st), (errors st). split_and!; [done | done |].
  subst st tasks. by destruct (allProvidersFailed _ _).
Qed.

End Fold.

(** ** Strings *)

Lemma string_app_cons c (x y : string) : String c x +:+ y = String c (x +:+ y).
Proof. reflexivity. Qed.

Lemma string_app_nil_r (x : string) : x +:+ "" = x.
Proof.
  induction x as [|c x IH]; [done|]. by rewrite string_app_cons, IH.
Qed.

Lemma string_app_assoc (x y z : string) : (x +:+ y) +:+ z = x +:+ y +:+ z.
Proof.
  induction x as [|c x IH]; [done|]. by rewrite !string_app_cons, IH.
Qed.

Lemma concat_carries (sep x : string) (l : list string) :
  x ∈ l -> exists before after, String.concat sep l = before +:+ x +:+ after.
Proof.
  induction l as [|y l IH]; [by intros ?%elem_of_nil|].
  intros [->|Hin]%elem_of_cons.
  - exists "". destruct l as [|z l].
    + exists "". simpl. symmetry. apply string_app_nil_r.
    + by exists (sep +:+ String.concat sep (z :: l)).
  - destruct (IH Hin) as (before & after & Heq).
    destruct l as [|z l]; [by apply elem_of_nil in Hin|].
    exists (y +:+ sep +:+ before), after.
    change (String.concat sep (y :: z :: l))
      with (y +:+ sep +:+ String.concat sep (z :: l)).
    by rewrite Heq, !string_app_assoc.
Qed.

Lemma Error_labelledFailure n e :
  Error (labelledFailure n e) = "provider " +:+ n +:+ ": " +:+ Error e.
Proof.
  unfold labelledFailure.
  destruct (String.eqb_spec (Error e) "circuit breaker is open") as [->|_];
    reflexivity.
Qed.

Lemma errAllProvidersFailed_carries errs n cause :
  labelledFailure n cause ∈ elems errs ->
  carries (errAllProvidersFailed errs) n cause.
Proof.
  intros Hin. unfold carries, errAllProvidersFailed, format_errors.
  destruct (concat_carries " " (Error (labelledFailure n cause))
              (map Error (elems errs))) as (before & after & Heq).
  { apply list_elem_of_fmap. by exists (labelledFailure n cause). }
  rewrite Error_labelledFailure in Heq.
  exists ("all providers failed: [" +:+ before), (after +:+ "]").
  cbn [Error]. rewrite Heq.
  change ("all providers failed: " +:+ "[" +:+ ?x)
    with ("all providers failed: [" +:+ x).
  by rewrite !string_app_assoc.
Qed.

(** ** The orchestrator *)

Lemma FetchFromAllProviders_empty sched clk q ct s :
  registry s = ∅ ->
  FetchFromAllProviders sched clk q ct s = ((mk_slice [], None), s).
Proof.
  intros Hempty. unfold FetchFromAllProviders, hasNoAdapters, GetAll.
  by rewrite Hempty, map_size_empty, bool_decide_eq_true_2.
Qed.

Section Orchestrator.
Context (sched : scheduler) (clk : clock) (q : string)
  (ct : option ContentType) (s : ProviderService).
Hypothesis Hok : service_ok s.
Hypothesis Hsched : forall l, sched l ≡ₚ l.

Let tasks := map_to_list (registry s).

Lemma scheduled_successfulRecords :
  successfulRecords clk q ct s (sched tasks)
  ≡ₚ successfulRecords clk q ct s tasks.
Proof. unfold successfulRecords. by rewrite (Hsched tasks). Qed.

Lemma scheduled_failedProviders :
  failedProviders clk q ct s (sched tasks)
  ≡ₚ failedProviders clk q ct s tasks.
Proof. unfold failedProviders. by rewrite (Hsched tasks). Qed.

(** The classification at the end of [FetchFromAllProviders], in terms
    of the providers' outcomes. *)
Lemma FetchFromAllProviders_classified :
  registry s <> ∅ ->
  exists recs errs,
    elems recs ≡ₚ successfulRecords clk q ct s tasks
    /\ (forall n cause, (n, cause) ∈ failedProviders clk q ct s tasks ->
          labelledFailure n cause ∈ elems errs)
    /\ (elems errs = [] <-> failedProviders clk q ct s tasks = [])
    /\ (FetchFromAllProviders sched clk q ct s).1
       = if allProvidersFailed recs errs
         then (nil_slice, Some (errAllProvidersFailed errs))
         else (recs, None).
Proof.
  intros Hne.
  destruct (FetchFromAllProviders_scheduled clk q ct sched s Hok Hsched Hne)
    as (recs & errs & Hrecs & Herrs & Hres).
  fold tasks in Hrecs, Herrs.
  exists recs, errs. split_and!; [| | |done].
  - rewrite Hrecs. apply scheduled_successfulRecords.
  - intros n cause Hin. rewrite Herrs, recordedFailures_failedProviders.
    apply list_elem_of_fmap. exists (n, cause). split; [done|].
    by rewrite scheduled_failedProviders.
  - rewrite Herrs, recordedFailures_failedProviders. split; intros Hnil.
    + apply fmap_nil_inv in Hnil. apply Permutation_nil_r.
      by rewrite <- scheduled_failedProviders, Hnil.
    + assert (failedProviders clk q ct s (sched tasks) = []) as ->; [|done].
      apply Permutation_nil_r. by rewrite scheduled_failedProviders, Hnil.
Qed.

End Orchestrator.

(** C9.  With no provider registered, [FetchFromAllProviders] returns an
    allocated, empty slice of records and a nil error, whatever the
    query and the type filter, and leaves the service as it was. *)
Theorem no_providers_empty_result (sched : scheduler) (clk : clock)
    (query : string) (contentType : option ContentType) (s : ProviderService) :
  registry s = ∅ ->
  let '(records, err, s') := FetchFromAllProviders sched clk query contentType s in
  records = mk_slice [] /\ is_nil records = false /\ err = None /\ s' = s.
Proof.
  intros Hempty. by rewrite FetchFromAllProviders_empty.
Qed.

Lemma no_providers_empty_result_witness :
  let '(records, err, s') :=
    FetchFromAllProviders inOrder sampleClock "test" (Some ContentTypeVideo)
      (NewProviderService NewAdapterRegistry) in
  records = mk_slice [] /\ is_nil records = false /\ err = None
  /\ s' = NewProviderService NewAdapterRegistry.
Proof.
  apply (no_providers_empty_result inOrder sampleClock "test"
           (Some ContentTypeVideo) (NewProviderService NewAdapterRegistry)).
  reflexivity.
Defined.

(** C1, as the specification words it, fails: when one provider answers
    with no records and the other is down, a provider has succeeded, yet
    the call returns the aggregate error. *)
Lemma partial_success_as_specified_fails :
  ~ partial_success_as_specified inOrder sampleClock "test" None
      serviceNoMatchOneDown.
Proof.
  intros Hclaim.
  destruct Hclaim as (recs & Hres & _).
  - vm_compute. lia.
  - vm_compute. lia.
  - vm_compute in Hres. discriminate Hres.
Qed.

(** C1, amended.  When at least one provider succeeds, and either no
    provider fails or the successful ones return a record between them,
    [FetchFromAllProviders] returns the records of the successful
    providers, in the order the tasks delivered them, and a nil error. *)
Theorem partial_success_returns_union (sched : scheduler) (clk : clock)
    (query : string) (contentType : option ContentType) (s : ProviderService) :
  service_ok s ->
  (forall l, sched l ≡ₚ l) ->
  let tasks := map_to_list (registry s) in
  (1 <= length (succeededProviders clk query contentType s tasks))%nat ->
  failedProviders clk query contentType s tasks = []
  \/ successfulRecords clk query contentType s tasks <> [] ->
  exists recs,
    (FetchFromAllProviders sched clk query contentType s).1 = (recs, None)
    /\ elems recs ≡ₚ successfulRecords clk query contentType s tasks.
Proof.
  intros Hok Hsched tasks Hsome Hcase.
  assert (Hne : registry s <> ∅).
  { intros Hempty. unfold tasks in Hsome.
    rewrite Hempty, map_to_list_empty in Hsome. simpl in Hsome. lia. }
  destruct (FetchFromAllProviders_classified sched clk query contentType s
              Hok Hsched Hne) as (recs & errs & Hrecs & _ & Herrs & Hres).
  fold tasks in Hrecs, Herrs.
  exists recs. split; [|done]. rewrite Hres.
  destruct (allProvidersFailed recs errs) eqn:Hall; [|done].
  apply allProvidersFailed_spec in Hall as [Hnone Hfail].
  destruct Hcase as [Hnofail | Hrec].
  - by apply Herrs in Hnofail.
  - destruct Hrec. apply Permutation_nil_r. by rewrite <- Hrecs, Hnone.
Qed.

Lemma partial_success_returns_union_witness :
  exists recs,
    (FetchFromAllProviders inOrder sampleClock "test" None
       serviceOneUpOneDown).1 = (recs, None)
    /\ elems recs ≡ₚ successfulRecords sampleClock "test" None
                       serviceOneUpOneDown
                       (map_to_list (registry serviceOneUpOneDown)).
Proof.
  apply (partial_success_returns_union inOrder sampleClock "test" None
           serviceOneUpOneDown).
  - apply NewProviderService_ok.
  - intros l. reflexivity.
  - vm_compute. lia.
  - right. vm_compute. discriminate.
Defined.

(** C2.  [FetchFromAllProviders] returns an error exactly when the
    successful providers returned no record between them and some provider
    failed; the records returned with it are the nil slice, and its
    message contains, for every provider that failed, that provider's
    name followed by the message of the error its [Execute] returned. *)
Theorem aggregate_error_iff_empty_and_failure (sched : scheduler) (clk : clock)
    (query : string) (contentType : option ContentType) (s : ProviderService) :
  service_ok s ->
  (forall l, sched l ≡ₚ l) ->
  let tasks := map_to_list (registry s) in
  let result := (FetchFromAllProviders sched clk query contentType s).1 in
  (is_Some result.2 <->
     successfulRecords clk query contentType s tasks = []
     /\ failedProviders clk query contentType s tasks <> [])
  /\ (forall aggregate, result.2 = Some aggregate ->
        result.1 = nil_slice
        /\ forall n cause,
             (n, cause) ∈ failedProviders clk query contentType s tasks ->
             carries aggregate n cause).
Proof.
  intros Hok Hsched tasks result.
  destruct (decide (registry s = ∅)) as [Hempty | Hne].
  { subst result tasks.
    rewrite (FetchFromAllProviders_empty _ _ _ _ _ Hempty).
    rewrite Hempty, map_to_list_empty. simpl. split.
    - split; [by intros [? ?] | by intros [_ ?]].
    - by intros aggregate. }
  destruct (FetchFromAllProviders_classified sched clk query contentType s
              Hok Hsched Hne) as (recs & errs & Hrecs & Hcauses & Herrs & Hres).
  fold tasks in Hrecs, Hcauses, Herrs. subst result. rewrite Hres.
  destruct (allProvidersFailed recs errs) eqn:Hall; simpl.
  - apply allProvidersFailed_spec in Hall as [Hnone Hfail]. split.
    + split; [intros _ | by eauto]. split.
      * apply Permutation_nil_r. by rewrite <- Hrecs, Hnone.
      * by rewrite <- Herrs.
    + intros aggregate [= <-]. split; [done|].
      intros n cause Hin. by apply errAllProvidersFailed_carries, Hcauses.
  - split; [|done]. split; [by intros [? ?]|].
    intros [Hnone Hfail].
    assert (allProvidersFailed recs errs = true) as Hyes; [|congruence].
    apply allProvidersFailed_spec. split.
    + apply Permutation_nil_r. by rewrite Hrecs, Hnone.
    + by rewrite Herrs.
Qed.

Lemma aggregate_error_iff_empty_and_failure_witness :
  let result :=
    (FetchFromAllProviders inOrder sampleClock "test" None serviceAllDown).1 in
  is_Some result.2 /\ result.1 = nil_slice.
Proof.
  intros result.
  destruct (aggregate_error_iff_empty_and_failure inOrder sampleClock "test"
              None serviceAllDown) as [Hiff Hcarry].
  - apply NewProviderService_ok.
  - intros l. reflexivity.
  - split.
    + apply Hiff. split; vm_compute; [reflexivity | discriminate].
    + destruct (Hcarry (errAllProvidersFailed
                  (mk_slice [labelledFailure "provider1" (errors_New "provider error");
                             labelledFailure "provider2" (errors_New "provider error")])))
        as [Hnil _]; [|exact Hnil].
      vm_compute. reflexivity.
Defined.

(** ** Telling the breaker's rejection from a call's failure *)

Lemma labelledFailure_classified n e :
  labelledFailure n e
  = if classifiedAsBreakerOpen e then errProviderOpen n else errProviderWrap n e.
Proof. reflexivity. Qed.

(** C5, as the specification words it, fails: a closed breaker passes on
    the error of a wrapped call whose message is the breaker's own, and
    the caller takes that call failure for a rejection. *)
Lemma told_apart_as_specified_fails :
  ~ told_apart_as_specified 1000 1001
      (countingMock (Some (errors_New "circuit breaker is open")))
      (NewCircuitBreaker 5 (30 * GoTime.Second)) 0%nat.
Proof.
  unfold told_apart_as_specified. simpl. intros [_ Hnever].
  specialize (Hnever _ eq_refl). vm_compute in Hnever. discriminate Hnever.
Qed.

(** C5, amended.  [Execute] returns either the wrapped call's own
    error, unchanged, or a new error with the message "circuit breaker is
    open", in which case the wrapped function has not run.  The caller
    goes by the message: a rejection is always classified as the
    breaker's, and a call failure is classified as a call failure exactly
    when its message is not "circuit breaker is open". *)
Theorem told_apart_by_message {W : Type} (now later : GoTime.Time)
    (fn : W -> W * option error) (cb : CircuitBreaker) (w : W) :
  let r := Execute now later fn cb w in
  match Execute_admit now cb with
  | inr _ =>
      r = (cb, w, Some (errors_New "circuit breaker is open"))
      /\ exists rejection,
           r.2 = Some rejection /\ classifiedAsBreakerOpen rejection = true
  | inl _ =>
      r.1.2 = (fn w).1 /\ r.2 = (fn w).2
      /\ forall failure,
           r.2 = Some failure ->
           (classifiedAsBreakerOpen failure = false
            <-> Error failure <> "circuit breaker is open")
  end.
Proof.
  unfold Execute. destruct (Execute_admit now cb) as [admitted|rejected] eqn:Hadm.
  - destruct (fn w) as [w' [e|]]; simpl; (split; [done|]); (split; [done|]);
      intros failure _; unfold classifiedAsBreakerOpen;
      by rewrite String.eqb_neq.
  - assert (rejected = errors_New "circuit breaker is open") as ->.
    { unfold Execute_admit in Hadm.
      destruct (getState cb); try done.
      destruct (resetTimeout cb <=? _); [done | by injection Hadm as <-]. }
    simpl. split; [done|]. by eexists.
Qed.

(** ** Concurrent first callers of getCircuitBreaker *)

(** A goroutine that runs its three sections without interference does
    what [getCircuitBreaker] does. *)
Lemma gcbRun_alone n s :
  gcbRun [0; 0; 0]%nat [AtLookup n] s
  = ([Returned (getCircuitBreaker n s).1], (getCircuitBreaker n s).2).
Proof.
  unfold getCircuitBreaker. simpl.
  destruct (lookupBreaker n s) as [p|] eqn:Hn; simpl; by rewrite ?Hn.
Qed.

(** One caller after the other get the same breaker. *)
Lemma getCircuitBreaker_again n s :
  let '(p1, s1) := getCircuitBreaker n s in
  getCircuitBreaker n s1 = (p1, s1).
Proof.
  unfold getCircuitBreaker, lookupBreaker.
  destruct (circuitBreakers s !! n) as [p|] eqn:Hn; simpl.
  - by rewrite Hn.
  - by rewrite lookup_insert_eq.
Qed.

(** C6 fails on the code.  Two goroutines ask for the breaker of the
    same new provider; both look it up before either stores one.  Each
    then allocates a breaker and stores it: two breakers exist, the
    callers hold different ones, and the map keeps the second. *)
Theorem getCircuitBreaker_race_two_instances :
  let '(ts, s) :=
    gcbRun [0; 1; 0; 0; 1; 1]%nat [AtLookup "provider1"; AtLookup "provider1"]
      (NewProviderService NewAdapterRegistry) in
  ts = [Returned 0%nat; Returned 1%nat]
  /\ length (breakers s) = 2%nat
  /\ circuitBreakers s !! "provider1" = Some 1%nat.
Proof. vm_compute. done. Qed.

(** ** Pagination of a cache hit *)

Lemma reslice_elems {A} (s : slice A) (l : list A) :
  (elems s = [] -> l = []) -> elems (reslice s l) = l.
Proof. destruct s; simpl; [|done]. intros H. by rewrite H. Qed.

(** Where the page arithmetic stays within [int], the page returned on a
    cache hit is the one slice semantics asks for: empty when the start
    index is beyond the records, the tail when only the end index is, the
    full window otherwise. *)
Lemma paginateCachedResults_in_range cached page pageSize :
  page * pageSize <= GoInt.max_int ->
  pagination_as_specified cached page pageSize.
Proof.
  intros Hmax Hpage Hsize. unfold paginateCachedResults, pageOf.
  assert (Hrange : forall z, 0 <= z <= page * pageSize -> GoInt.wrap z = z).
  { intros z Hz. apply GoInt_wrap_id.
    unfold GoInt.in_range, GoInt.min_int, GoInt.max_int in *. lia. }
  unfold GoInt.sub, GoInt.mul, GoInt.add.
  rewrite (Hrange (page - 1)) by nia.
  rewrite (Hrange ((page - 1) * pageSize)) by nia.
  rewrite (Hrange ((page - 1) * pageSize + pageSize)) by nia.
  set (start := (page - 1) * pageSize).
  assert (Hstart : 0 <= start) by (unfold start; nia).
  unfold isStartBeyondBounds, isEndBeyondBounds, len.
  set (total := length (elems cached)).
  destruct (Z.ltb_spec (Z.of_nat total) start) as [Hbeyond | Hwithin].
  { eexists. split; [done|]. simpl.
    rewrite drop_ge by (fold total; lia). by rewrite take_nil. }
  destruct (Z.ltb_spec (Z.of_nat total) (start + pageSize)) as [Hend | Hend].
  - unfold slice_from, len. fold total.
    destruct (Z.leb_spec 0 start); [|lia].
    destruct (Z.leb_spec start (Z.of_nat total)); [|lia]. simpl.
    eexists. split; [done|].
    rewrite reslice_elems by (intros Hnil; by rewrite Hnil, drop_nil).
    rewrite take_ge; [done|]. rewrite length_drop. fold total. lia.
  - unfold slice_range, len. fold total.
    destruct (Z.leb_spec 0 start); [|lia].
    destruct (Z.leb_spec start (start + pageSize)); [|lia].
    destruct (Z.leb_spec (start + pageSize) (Z.of_nat total)); [|lia]. simpl.
    eexists. split; [done|].
    rewrite reslice_elems
      by (intros Hnil; by rewrite Hnil, drop_nil, take_nil).
    by replace (start + pageSize - start) with pageSize by lia.
Qed.

Lemma pageOf_beyond cached page pageSize :
  len cached < (page - 1) * pageSize -> pageOf cached page pageSize = [].
Proof.
  unfold pageOf, len. intros Hbeyond.
  rewrite drop_ge by lia. apply take_nil.
Qed.

(** Three cached records in pages of two: two records, one record, no
    record. *)
Example paginate_three_by_two :
  (len <$> paginateCachedResults threeRecords 1 2) = Some 2
  /\ (len <$> paginateCachedResults threeRecords 2 2) = Some 1
  /\ (len <$> paginateCachedResults threeRecords 3 2) = Some 0.
Proof. vm_compute. done. Qed.

(** C7 fails on the code where the page arithmetic leaves [int].  For
    the largest page number and pages of 100 the start index wraps to
    -200, neither bound check fires, and the slice expression panics; for
    page 2^61 + 1 and pages of 8 it wraps to 0 and the first records come
    back where the page should be empty.  The same requests reach the
    cache-hit branch of [Search]. *)
Theorem paginateCachedResults_overflow :
  paginateCachedResults threeRecords GoInt.max_int 100 = None
  /\ paginateCachedResults threeRecords (2 ^ 61 + 1) 8 = Some threeRecords
  /\ ~ pagination_as_specified threeRecords GoInt.max_int 100
  /\ ~ pagination_as_specified threeRecords (2 ^ 61 + 1) 8
  /\ searchCacheHit (mkSearchRequest "go" None GoInt.max_int 100 "score" "desc")
       threeRecords = None.
Proof.
  split; [vm_compute; reflexivity|].
  split; [vm_compute; reflexivity|].
  split; [|split; [|vm_compute; reflexivity]].
  - intros Hspec. destruct Hspec as (items & Hsome & _).
    + vm_compute. discriminate.
    + vm_compute. discriminate.
    + vm_compute in Hsome. discriminate Hsome.
  - intros Hspec. destruct Hspec as (items & Hsome & Hitems).
    + vm_compute. discriminate.
    + vm_compute. discriminate.
    + rewrite pageOf_beyond in Hitems by (vm_compute; reflexivity).
      vm_compute in Hsome. injection Hsome as <-. discriminate Hitems.
Qed.

(** ** The cache key *)

(** C8.  A request with the content-type filter "all" and the same
    request with no content-type filter get the same cache key, from
    [generateCacheKey] itself and after the normalisation [Search] puts
    before it. *)
Theorem cache_key_all_is_absent (query : string) (page pageSize : Z)
    (sortBy sortOrder : string) :
  let explicit :=
    mkSearchRequest query (Some "all") page pageSize sortBy sortOrder in
  let absent := mkSearchRequest query None page pageSize sortBy sortOrder in
  generateCacheKey explicit = generateCacheKey absent
  /\ searchCacheKey explicit = searchCacheKey absent.
Proof.
  intros explicit absent. split; [reflexivity|].
  unfold searchCacheKey, normalizeSearch, NormalizePagination. simpl.
  by destruct (negb (String.eqb sortOrder "asc")
               && negb (String.eqb sortOrder "desc")).
Qed.

(* ===================================================================== *)
(** * Further properties of the code                                      *)
(* ===================================================================== *)

(** ** The circuit breaker *)

Lemma Execute_admitted {W} now later (fn : W -> W * option error) cb w :
  state cb <> CircuitStateOpen ->
  Execute now later fn cb w
  = (match (fn w).2 with
     | Some _ => recordFailure later cb
     | None => recordSuccess cb
     end, (fn w).1, (fn w).2).
Proof.
  intros Hst. unfold Execute, Execute_admit, getState.
  destruct (state cb); [|done|]; by destruct (fn w) as [w' [e|]].
Qed.

(** X1.  A call that [Execute] reports as successful was made, on a
    breaker that admitted it; afterwards the failure counter is 0 and the
    breaker is not open, the instant of the last failure is untouched,
    and a breaker that was closed is still closed. *)
Theorem Execute_success_resets_failures {W : Type} (now later : GoTime.Time)
    (fn : W -> W * option error) (cb : CircuitBreaker) (w : W) :
  (Execute now later fn cb w).2 = None ->
  let cb' := (Execute now later fn cb w).1.1 in
  (fn w).2 = None
  /\ (Execute now later fn cb w).1.2 = (fn w).1
  /\ failureCount cb' = 0
  /\ state cb' <> CircuitStateOpen
  /\ lastFailureTime cb' = lastFailureTime cb
  /\ (state cb = CircuitStateClosed -> state cb' = CircuitStateClosed).
Proof.
  destruct cb as [m r h st fc lf sc].
  destruct st; unfold_breaker; breaker_cases; simpl;
    destruct (fn w) as [w' [e|]]; simpl; try done; intros _;
    try destruct (2 <=? _); simpl; split_and!; done.
Qed.

Lemma Execute_success_resets_failures_witness :
  let cb := recordFailure 100 (NewCircuitBreaker 5 (30 * GoTime.Second)) in
  failureCount cb = 1
  /\ failureCount (Execute 200 201 (countingMock None) cb 0%nat).1.1 = 0.
Proof.
  intros cb. split; [reflexivity|].
  apply (Execute_success_resets_failures 200 201 (countingMock None) cb 0%nat).
  reflexivity.
Defined.

Lemma Execute_failing_closed_below {W} now later (fn : W -> W * option error)
    cb w :
  breaker_ok cb ->
  state cb = CircuitStateClosed ->
  is_Some (Execute now later fn cb w).2 ->
  failureCount cb + 1 < maxFailures cb ->
  let cb' := (Execute now later fn cb w).1.1 in
  state cb' = CircuitStateClosed
  /\ failureCount cb' = failureCount cb + 1
  /\ lastFailureTime cb' = later.
Proof.
  destruct cb as [m r h st fc lf sc].
  unfold breaker_ok, GoInt.in_range. simpl.
  intros (Hm & Hfc & Hroom & _) -> Hfail Hbelow.
  assert (Hwf : GoInt.add fc 1 = fc + 1).
  { apply GoInt_wrap_id. specialize (Hroom ltac:(done)).
    unfold GoInt.in_range, GoInt.min_int, GoInt.max_int in *. lia. }
  unfold_breaker. destruct (fn w) as [w' [e|]]; simpl in *.
  - rewrite Hwf. destruct (Z.leb_spec m (fc + 1)); [lia | done].
  - by destruct Hfail.
Qed.

(** X2.  The breaker does not open early: a closed breaker whose
    failure counter is [c] is still closed after [k] calls in a row that
    return an error, as long as [c + k] stays below [maxFailures]; its
    counter is then [c + k]. *)
Theorem breaker_stays_closed_below_threshold {W : Type}
    (cb : CircuitBreaker) (calls : list (breakerOp W)) (w : W) :
  breaker_ok cb ->
  state cb = CircuitStateClosed ->
  failureCount cb + Z.of_nat (length calls) < maxFailures cb ->
  Forall is_Some (runOps calls cb w).2 ->
  let cb' := (runOps calls cb w).1.1 in
  state cb' = CircuitStateClosed
  /\ failureCount cb' = failureCount cb + Z.of_nat (length calls).
Proof.
  revert cb w. induction calls as [|op calls IH]; intros cb w Hok Hst Hlt Hall.
  { simpl. split; [done | lia]. }
  rewrite runOps_cons in Hall |- *. simpl in Hall |- *.
  apply Forall_cons in Hall as [Hop Hrest].
  destruct (runOp_failing_is_Execute op cb w Hop) as (now & later & fn & ->).
  simpl in *.
  pose proof (Execute_ok now later fn cb w Hok) as Hok1.
  pose proof (Execute_maxFailures now later fn cb w) as Hmax1.
  destruct (Execute_failing_closed_below now later fn cb w Hok Hst Hop)
    as (Hst1 & Hfc1 & _); [lia|].
  set (r := Execute now later fn cb w) in *.
  destruct (IH r.1.1 r.1.2 Hok1 Hst1) as [Hst2 Hfc2]; [lia | done |].
  split; [done | lia].
Qed.

Lemma breaker_stays_closed_below_threshold_witness :
  let failing := OpExecute 10 11 (countingMock (Some (errors_New "timeout"))) in
  let cb := NewCircuitBreaker 5 (30 * GoTime.Second) in
  let cb' := (runOps [failing; failing; failing; failing] cb 0%nat).1.1 in
  state cb' = CircuitStateClosed /\ failureCount cb' = 0 + Z.of_nat 4.
Proof.
  intros failing cb.
  apply (breaker_stays_closed_below_threshold cb
           [failing; failing; failing; failing] 0%nat).
  - apply NewCircuitBreaker_ok. vm_compute. split; discriminate.
  - reflexivity.
  - vm_compute. reflexivity.
  - vm_compute. repeat constructor; eexists; reflexivity.
Defined.

(** Where the failure counter of a breaker with threshold [m] can be. *)
Lemma failureCount_bounds_step {W} now later (fn : W -> W * option error)
    cb w :
  GoInt.in_range (maxFailures cb) ->
  (match state cb with
   | CircuitStateClosed => 0 <= failureCount cb < Z.max 1 (maxFailures cb)
   | CircuitStateHalfOpen => failureCount cb = 0
   | CircuitStateOpen => 1 <= failureCount cb <= Z.max 1 (maxFailures cb)
   end) ->
  let cb' := (Execute now later fn cb w).1.1 in
  match state cb' with
  | CircuitStateClosed => 0 <= failureCount cb' < Z.max 1 (maxFailures cb)
  | CircuitStateHalfOpen => failureCount cb' = 0
  | CircuitStateOpen => 1 <= failureCount cb' <= Z.max 1 (maxFailures cb)
  end.
Proof.
  destruct cb as [m r h st fc lf sc]. unfold GoInt.in_range. simpl.
  intros Hm Hinv.
  assert (Hw0 : GoInt.add 0 1 = 1) by reflexivity.
  assert (Hwf : st = CircuitStateClosed -> GoInt.add fc 1 = fc + 1).
  { intros ->. apply GoInt_wrap_id.
    unfold GoInt.in_range, GoInt.min_int, GoInt.max_int in *. lia. }
  destruct st; unfold_breaker; breaker_cases; simpl;
    destruct (fn w) as [w' [e|]]; simpl;
    rewrite ?Hw0, ?Hwf in * by done; breaker_cases; simpl; try lia;
    destruct (2 <=? _); simpl; lia.
Qed.

(** X3.  The failure counter cannot run away: from construction on,
    after any sequence of [Execute] and [Reset] calls, it is below
    [max(1, maxFailures)] while the breaker is closed, 0 while it is
    half-open, and between 1 and [max(1, maxFailures)] while it is open;
    so it never leaves the range of [int]. *)
Theorem breaker_failureCount_bounded {W : Type} (m : Z) (r : GoTime.Duration)
    (ops : list (breakerOp W)) (w : W) :
  GoInt.in_range m ->
  let cb := (runOps ops (NewCircuitBreaker m r) w).1.1 in
  maxFailures cb = m
  /\ match state cb with
     | CircuitStateClosed => 0 <= failureCount cb < Z.max 1 m
     | CircuitStateHalfOpen => failureCount cb = 0
     | CircuitStateOpen => 1 <= failureCount cb <= Z.max 1 m
     end.
Proof.
  intros Hm.
  assert (Hgen : forall cb w,
    maxFailures cb = m ->
    (match state cb with
     | CircuitStateClosed => 0 <= failureCount cb < Z.max 1 m
     | CircuitStateHalfOpen => failureCount cb = 0
     | CircuitStateOpen => 1 <= failureCount cb <= Z.max 1 m
     end) ->
    let cb' := (runOps ops cb w).1.1 in
    maxFailures cb' = m
    /\ match state cb' with
       | CircuitStateClosed => 0 <= failureCount cb' < Z.max 1 m
       | CircuitStateHalfOpen => failureCount cb' = 0
       | CircuitStateOpen => 1 <= failureCount cb' <= Z.max 1 m
       end).
  { induction ops as [|op ops IH]; intros cb w0 Hmax Hinv; [done|].
    rewrite runOps_cons. simpl.
    destruct op as [now later fn|]; simpl; apply IH.
    - by rewrite Execute_maxFailures.
    - pose proof (failureCount_bounds_step now later fn cb w0) as Hstep.
      rewrite Hmax in Hstep. by apply Hstep.
    - done.
    - simpl. lia. }
  apply Hgen; simpl; [done | lia].
Qed.

Lemma breaker_failureCount_bounded_witness :
  let failing := OpExecute 10 11 (countingMock (Some (errors_New "timeout"))) in
  let cb := (runOps [failing; failing; failing] (NewCircuitBreaker 2 30) 0%nat).1.1 in
  maxFailures cb = 2
  /\ match state cb with
     | CircuitStateClosed => 0 <= failureCount cb < Z.max 1 2
     | CircuitStateHalfOpen => failureCount cb = 0
     | CircuitStateOpen => 1 <= failureCount cb <= Z.max 1 2
     end.
Proof.
  intros failing.
  apply (breaker_failureCount_bounded 2 30 [failing; failing; failing] 0%nat).
  vm_compute. split; discriminate.
Defined.

(** X4.  [Reset] forces the breaker closed: whatever its state and
    however recent its last failure, the call after a [Reset] is made and
    its own result returned, and it takes [maxFailures] failures again to
    open the breaker (for a threshold above 1 the first failure leaves it
    closed).  Resetting twice is resetting once. *)
Theorem Reset_readmits {W : Type} (now later : GoTime.Time)
    (fn : W -> W * option error) (cb : CircuitBreaker) (w : W) :
  let r := Execute now later fn (Reset cb) w in
  state (Reset cb) = CircuitStateClosed
  /\ failureCount (Reset cb) = 0 /\ successCount (Reset cb) = 0
  /\ r.1.2 = (fn w).1 /\ r.2 = (fn w).2
  /\ (1 < maxFailures cb -> state r.1.1 = CircuitStateClosed)
  /\ Reset (Reset cb) = Reset cb.
Proof.
  destruct cb as [m rt h st fc lf sc]. unfold_breaker.
  destruct (fn w) as [w' [e|]]; simpl; split_and!; try done.
  intros Hm. change (GoInt.add 0 1) with 1.
  by destruct (Z.leb_spec m 1); [lia|].
Qed.

(** X5.  The half-open timeout computed at construction plays no part:
    two breakers that differ in it only behave alike under [Execute]. *)
Theorem halfOpenTimeout_unused {W : Type} (now later : GoTime.Time)
    (fn : W -> W * option error) (cb : CircuitBreaker) (w : W)
    (h : GoTime.Duration) :
  let r := Execute now later fn cb w in
  Execute now later fn (set_halfOpenTimeout h cb) w
  = (set_halfOpenTimeout h r.1.1, r.1.2, r.2).
Proof.
  destruct cb as [m rt h0 st fc lf sc]. unfold set_halfOpenTimeout.
  destruct st; unfold_breaker; breaker_cases; simpl;
    destruct (fn w) as [w' [e|]]; simpl; breaker_cases; simpl; try done;
    destruct (2 <=? _); done.
Qed.

(** ** The orchestrator and its breakers *)

Lemma getCircuitBreaker_map n s :
  let '(p, s') := getCircuitBreaker n s in
  (forall n' p', circuitBreakers s !! n' = Some p' ->
                 circuitBreakers s' !! n' = Some p')
  /\ (forall n', is_Some (circuitBreakers s' !! n')
                 <-> is_Some (circuitBreakers s !! n') \/ n' = n).
Proof.
  unfold getCircuitBreaker, lookupBreaker.
  destruct (circuitBreakers s !! n) as [p|] eqn:Hn; simpl.
  - split; [done|]. intros n'. split; [by left|].
    intros [?| ->]; [done | by rewrite Hn].
  - split.
    + intros n' p' Hn'. rewrite lookup_insert_ne; [done|]. by intros ->; congruence.
    + intros n'. destruct (decide (n' = n)) as [->|Hne].
      * rewrite lookup_insert_eq. split; [by right | by eauto].
      * rewrite lookup_insert_ne by done. split; [by left|]. by intros [?|?].
Qed.

Lemma providerTask_breakers clk q ct st n a :
  service_ok (svc st) ->
  let st' := providerTask clk q ct st (n, a) in
  breakerOf n (svc st') = breakerAfter clk q ct (svc st) (n, a)
  /\ (forall n' p', circuitBreakers (svc st) !! n' = Some p' ->
                    circuitBreakers (svc st') !! n' = Some p')
  /\ (forall n', is_Some (circuitBreakers (svc st') !! n')
                 <-> is_Some (circuitBreakers (svc st) !! n') \/ n' = n).
Proof.
  intros Hok. unfold providerTask, breakerAfter.
  pose proof (getCircuitBreaker_spec n (svc st) Hok) as Hget.
  pose proof (getCircuitBreaker_map n (svc st)) as Hmap.
  destruct (getCircuitBreaker n (svc st)) as [p s1].
  destruct Hget as (Hok1 & _ & Hp & Hderef & _). destruct Hmap as [Hkeep Hdom].
  destruct (clk n) as [now later]. rewrite Hderef. simpl.
  destruct (Execute now later (fetchClosure a q ct) (breakerOf n (svc st))
              (nil_slice, None)) as [[cb' [contents err]] cbErr].
  destruct (assign_spec n p cb' s1 Hok1 Hp) as (_ & _ & Hmine & _).
  destruct cbErr as [e|]; simpl;
    [destruct (String.eqb (Error e) "circuit breaker is open"); simpl|];
    split_and!; done.
Qed.

Section FoldBreakers.
Context (clk : clock) (q : string) (ct : option ContentType).

Lemma breakerAfter_frame s1 s2 n a :
  breakerOf n s1 = breakerOf n s2 ->
  breakerAfter clk q ct s1 (n, a) = breakerAfter clk q ct s2 (n, a).
Proof. unfold breakerAfter. by intros ->. Qed.

Lemma foldl_providerTask_breakers (tasks : list (string * ProviderAdapter)) st :
  service_ok (svc st) ->
  NoDup tasks.*1 ->
  let st' := foldl (providerTask clk q ct) st tasks in
  (forall n a, (n, a) ∈ tasks ->
     breakerOf n (svc st') = breakerAfter clk q ct (svc st) (n, a))
  /\ (forall n, n ∉ tasks.*1 -> breakerOf n (svc st') = breakerOf n (svc st))
  /\ (forall n p, circuitBreakers (svc st) !! n = Some p ->
                  circuitBreakers (svc st') !! n = Some p)
  /\ (forall n, is_Some (circuitBreakers (svc st') !! n)
                <-> is_Some (circuitBreakers (svc st) !! n) \/ n ∈ tasks.*1).
Proof.
  revert st. induction tasks as [|[n a] tasks IH]; intros st Hok Hnd.
  { simpl. split_and!; try done.
    - by intros n a ?%elem_of_nil.
    - intros n. split; [by left|]. by intros [?|?%elem_of_nil]. }
  rewrite fmap_cons in Hnd. apply NoDup_cons in Hnd as [Hn Hnd].
  cbn [foldl].
  destruct (providerTask_spec clk q ct st n a Hok) as (Hok1 & _ & Hframe & _).
  destruct (providerTask_breakers clk q ct st n a Hok) as (Hmine & Hkeep & Hdom).
  destruct (IH _ Hok1 Hnd) as (IHin & IHout & IHkeep & IHdom).
  split_and!.
  - intros n' a' [Heq|Hin]%elem_of_cons.
    + injection Heq as -> ->. by rewrite IHout.
    + rewrite (IHin _ _ Hin). apply breakerAfter_frame, Hframe.
      intros ->. apply Hn. apply list_elem_of_fmap. by exists (n, a').
  - intros n' Hn'. rewrite fmap_cons, not_elem_of_cons in Hn'.
    destruct Hn' as [Hne Hn']. rewrite IHout by done. by apply Hframe.
  - intros n' p' Hn'. by apply IHkeep, Hkeep.
  - intros n'. rewrite IHdom, Hdom, fmap_cons, elem_of_cons. simpl. tauto.
Qed.

End FoldBreakers.

(** The service after a run, when providers are registered. *)
Lemma FetchFromAllProviders_service sched clk q ct s :
  registry s <> ∅ ->
  (FetchFromAllProviders sched clk q ct s).2
  = svc (foldl (providerTask clk q ct) (mkFetchState s nil_slice nil_slice)
           (sched (map_to_list (registry s)))).
Proof.
  intros Hne. unfold FetchFromAllProviders, hasNoAdapters, GetAll.
  rewrite bool_decide_eq_false_2 by (by rewrite map_size_empty_iff).
  cbv zeta. by destruct (allProvidersFailed _ _).
Qed.

Lemma FetchFromAllProviders_breakers sched clk q ct s :
  service_ok s ->
  (forall l, sched l ≡ₚ l) ->
  let s' := (FetchFromAllProviders sched clk q ct s).2 in
  service_ok s'
  /\ registry s' = registry s
  /\ (forall n a, registry s !! n = Some a ->
        breakerOf n s' = breakerAfter clk q ct s (n, a))
  /\ (forall n, registry s !! n = None -> breakerOf n s' = breakerOf n s)
  /\ (forall n p, circuitBreakers s !! n = Some p ->
                  circuitBreakers s' !! n = Some p)
  /\ (forall n, is_Some (circuitBreakers s' !! n)
                <-> is_Some (circuitBreakers s !! n) \/ is_Some (registry s !! n)).
Proof.
  intros Hok Hsched s'. subst s'.
  destruct (decide (registry s = ∅)) as [Hempty | Hne].
  { rewrite (FetchFromAllProviders_empty _ _ _ _ _ Hempty). simpl.
    split_and!; try done.
    - intros n a. by rewrite Hempty, lookup_empty.
    - intros n. rewrite Hempty, lookup_empty. split; [by left|].
      by intros [?|[? ?]]. }
  rewrite FetchFromAllProviders_service by done.
  set (tasks := sched (map_to_list (registry s))).
  assert (Hnd : NoDup tasks.*1).
  { unfold tasks. rewrite (Hsched _). apply NoDup_fst_map_to_list. }
  assert (Hin : forall n a, (n, a) ∈ tasks <-> registry s !! n = Some a).
  { intros n a. unfold tasks. rewrite (Hsched _). apply elem_of_map_to_list. }
  assert (Hnames : forall n, n ∈ tasks.*1 <-> is_Some (registry s !! n)).
  { intros n. rewrite list_elem_of_fmap. split.
    - intros ([n' a] & -> & Ht). apply Hin in Ht. by eexists.
    - intros [a Ha]. exists (n, a). split; [done|]. by apply Hin. }
  destruct (foldl_providerTask_spec clk q ct tasks
              (mkFetchState s nil_slice nil_slice) Hok Hnd) as (Hok' & Hreg & _).
  destruct (foldl_providerTask_breakers clk q ct tasks
              (mkFetchState s nil_slice nil_slice) Hok Hnd)
    as (Hmine & Hothers & Hkeep & Hdom).
  simpl in *. split_and!; try done.
  - intros n a Ha. by apply Hmine, Hin.
  - intros n Hn. apply Hothers. rewrite Hnames, Hn. by intros [? ?].
  - intros n. by rewrite Hdom, Hnames.
Qed.

Lemma fetchClosure_spec a q ct captured :
  fetchClosure a q ct captured = (FetchContent a q ct, (FetchContent a q ct).2).
Proof. unfold fetchClosure. by destruct (FetchContent a q ct). Qed.

(** X6.  One run of [FetchFromAllProviders] puts every registered
    provider's breaker through exactly one [Execute] around that
    provider's fetch, and leaves the breakers of all other names, the
    adapter registry and the representation invariant as they were. *)
Theorem fetch_runs_each_breaker_once (sched : scheduler) (clk : clock)
    (query : string) (contentType : option ContentType) (s : ProviderService) :
  service_ok s ->
  (forall l, sched l ≡ₚ l) ->
  let s' := (FetchFromAllProviders sched clk query contentType s).2 in
  service_ok s'
  /\ registry s' = registry s
  /\ (forall n a, registry s !! n = Some a ->
        breakerOf n s'
        = (Execute (clk n).1 (clk n).2 (fetchClosure a query contentType)
             (breakerOf n s) (nil_slice, None)).1.1)
  /\ (forall n, registry s !! n = None -> breakerOf n s' = breakerOf n s).
Proof.
  intros Hok Hsched.
  destruct (FetchFromAllProviders_breakers sched clk query contentType s
              Hok Hsched) as (Hok' & Hreg & Hmine & Hothers & _).
  split_and!; try done.
Qed.

Lemma fetch_runs_each_breaker_once_witness :
  let s' := (FetchFromAllProviders inOrder sampleClock "test" None
               serviceOneUpOneDown).2 in
  failureCount (breakerOf "provider2" s') = 1
  /\ failureCount (breakerOf "provider1" s') = 0.
Proof.
  intros s'.
  destruct (fetch_runs_each_breaker_once inOrder sampleClock "test" None
              serviceOneUpOneDown) as (_ & _ & Hmine & _).
  - apply NewProviderService_ok.
  - intros l. reflexivity.
  - split.
    + subst s'. rewrite (Hmine "provider2" downAdapter); vm_compute; reflexivity.
    + subst s'. rewrite (Hmine "provider1" oneRecordAdapter);
        vm_compute; reflexivity.
Defined.

(** X7.  A provider whose fetch fails while its breaker is closed has
    that failure counted once: after the run the breaker's failure
    counter is one higher and its last failure is the instant the task
    recorded it, whatever the other providers did. *)
Theorem fetch_counts_provider_failure (sched : scheduler) (clk : clock)
    (query : string) (contentType : option ContentType) (s : ProviderService)
    (n : string) (a : ProviderAdapter) :
  service_ok s ->
  (forall l, sched l ≡ₚ l) ->
  registry s !! n = Some a ->
  is_Some (FetchContent a query contentType).2 ->
  state (breakerOf n s) = CircuitStateClosed ->
  breaker_ok (breakerOf n s) ->
  let cb' := breakerOf n (FetchFromAllProviders sched clk query contentType s).2 in
  failureCount cb' = failureCount (breakerOf n s) + 1
  /\ lastFailureTime cb' = (clk n).2
  /\ (state cb' = CircuitStateOpen
      <-> maxFailures (breakerOf n s) <= failureCount (breakerOf n s) + 1).
Proof.
  intros Hok Hsched Hn Hfail Hst Hcb.
  destruct (FetchFromAllProviders_breakers sched clk query contentType s
              Hok Hsched) as (_ & _ & Hmine & _).
  cbv zeta. rewrite (Hmine n a Hn). unfold breakerAfter.
  rewrite Execute_admitted by (by rewrite Hst).
  rewrite fetchClosure_spec.
  destruct (FetchContent a query contentType) as [contents [e|]];
    [|by destruct Hfail]. simpl.
  destruct (breakerOf n s) as [m r h st fc lf sc].
  unfold breaker_ok, GoInt.in_range in Hcb. simpl in *. subst st.
  destruct Hcb as (Hm & Hfc & Hroom & _).
  assert (Hwf : GoInt.add fc 1 = fc + 1).
  { apply GoInt_wrap_id. specialize (Hroom ltac:(done)).
    unfold GoInt.in_range, GoInt.min_int, GoInt.max_int in *. lia. }
  unfold recordFailure. simpl. rewrite Hwf.
  destruct (Z.leb_spec m (fc + 1)); simpl; split_and!; try done.
  split; [done | lia].
Qed.

Lemma fetch_counts_provider_failure_witness :
  let cb' := breakerOf "provider2"
               (FetchFromAllProviders inOrder sampleClock "test" None
                  serviceOneUpOneDown).2 in
  failureCount cb' = 0 + 1 /\ lastFailureTime cb' = 1001.
Proof.
  intros cb'.
  destruct (fetch_counts_provider_failure inOrder sampleClock "test" None
              serviceOneUpOneDown "provider2" downAdapter)
    as (Hfc & Hlast & _).
  - apply NewProviderService_ok.
  - intros l. reflexivity.
  - vm_compute. reflexivity.
  - vm_compute. eexists. reflexivity.
  - reflexivity.
  - apply NewCircuitBreaker_ok. vm_compute. split; discriminate.
  - split; [exact Hfc | exact Hlast].
Defined.

(** X8.  The order in which the goroutines get to run matters only
    through the instants the tasks read off the clock: two runs from the
    same service in which every provider's task reads the same instants,
    under different schedules, agree on whether the call fails, return
    the same records up to their order, and leave every breaker in the
    same state. *)
Theorem fetch_independent_of_schedule (sched1 sched2 : scheduler) (clk : clock)
    (query : string) (contentType : option ContentType) (s : ProviderService) :
  service_ok s ->
  (forall l, sched1 l ≡ₚ l) ->
  (forall l, sched2 l ≡ₚ l) ->
  let r1 := FetchFromAllProviders sched1 clk query contentType s in
  let r2 := FetchFromAllProviders sched2 clk query contentType s in
  (is_Some r1.1.2 <-> is_Some r2.1.2)
  /\ elems r1.1.1 ≡ₚ elems r2.1.1
  /\ (forall n, breakerOf n r1.2 = breakerOf n r2.2).
Proof.
  intros Hok Hs1 Hs2 r1 r2.
  assert (Hbreakers : forall n, breakerOf n r1.2 = breakerOf n r2.2).
  { intros n.
    destruct (FetchFromAllProviders_breakers sched1 clk query contentType s
                Hok Hs1) as (_ & _ & Hmine1 & Hothers1 & _).
    destruct (FetchFromAllProviders_breakers sched2 clk query contentType s
                Hok Hs2) as (_ & _ & Hmine2 & Hothers2 & _).
    subst r1 r2. destruct (registry s !! n) as [a|] eqn:Hn.
    - by rewrite (Hmine1 n a Hn), (Hmine2 n a Hn).
    - by rewrite (Hothers1 n Hn), (Hothers2 n Hn). }
  destruct (decide (registry s = ∅)) as [Hempty | Hne].
  { subst r1 r2. by rewrite !(FetchFromAllProviders_empty _ _ _ _ _ Hempty). }
  destruct (FetchFromAllProviders_classified sched1 clk query contentType s
              Hok Hs1 Hne) as (recs1 & errs1 & Hrecs1 & _ & Herrs1 & Hres1).
  destruct (FetchFromAllProviders_classified sched2 clk query contentType s
              Hok Hs2 Hne) as (recs2 & errs2 & Hrecs2 & _ & Herrs2 & Hres2).
  assert (Hsame : allProvidersFailed recs1 errs1 = allProvidersFailed recs2 errs2).
  { apply eq_true_iff_eq. rewrite !allProvidersFailed_spec.
    rewrite <- Herrs1 in Herrs2.
    assert (elems recs1 = [] <-> elems recs2 = []) as ->; [|by rewrite Herrs2].
    split; intros Hnil; apply Permutation_nil_r.
    - by rewrite Hrecs2, <- Hrecs1, Hnil.
    - by rewrite Hrecs1, <- Hrecs2, Hnil. }
  subst r1 r2. rewrite Hres1, Hres2, Hsame.
  destruct (allProvidersFailed recs2 errs2); simpl.
  - split_and!; [split; by eauto | done | done].
  - split_and!; [split; by intros [? ?] | by rewrite Hrecs1, Hrecs2 | done].
Qed.

Lemma fetch_independent_of_schedule_witness :
  let r1 := FetchFromAllProviders inOrder sampleClock "test" None
              serviceOneUpOneDown in
  let r2 := FetchFromAllProviders reverse sampleClock "test" None
              serviceOneUpOneDown in
  (is_Some r1.1.2 <-> is_Some r2.1.2) /\ elems r1.1.1 ≡ₚ elems r2.1.1.
Proof.
  intros r1 r2.
  destruct (fetch_independent_of_schedule inOrder reverse sampleClock "test"
              None serviceOneUpOneDown) as (Herr & Hrecs & _).
  - apply NewProviderService_ok.
  - intros l. reflexivity.
  - intros l. apply reverse_Permutation.
  - split; [exact Herr | exact Hrecs].
Defined.

Lemma append_nil_or_nonempty {A} (s : slice A) xs :
  s = nil_slice \/ elems s <> [] ->
  append s xs = nil_slice \/ elems (append s xs) <> [].
Proof.
  destruct xs as [|x xs]; simpl; [done|]. intros _. right.
  by destruct (elems s).
Qed.

Lemma foldl_providerTask_nil_or_nonempty clk q ct
    (tasks : list (string * ProviderAdapter)) st :
  service_ok (svc st) ->
  allContents st = nil_slice \/ elems (allContents st) <> [] ->
  let st' := foldl (providerTask clk q ct) st tasks in
  allContents st' = nil_slice \/ elems (allContents st') <> [].
Proof.
  revert st. induction tasks as [|[n a] tasks IH]; intros st Hok Hcan; [done|].
  cbn [foldl].
  destruct (providerTask_spec clk q ct st n a Hok) as (Hok1 & _ & _ & Hc & _).
  apply IH; [done|]. rewrite Hc. by apply append_nil_or_nonempty.
Qed.

Lemma FetchFromAllProviders_result sched clk q ct s :
  registry s <> ∅ ->
  let st := foldl (providerTask clk q ct) (mkFetchState s nil_slice nil_slice)
              (sched (map_to_list (registry s))) in
  (FetchFromAllProviders sched clk q ct s).1
  = if allProvidersFailed (allContents st) (errors st)
    then (nil_slice, Some (errAllProvidersFailed (errors st)))
    else (allContents st, None).
Proof.
  intros Hne. unfold FetchFromAllProviders, hasNoAdapters, GetAll.
  rewrite bool_decide_eq_false_2 by (by rewrite map_size_empty_iff).
  cbv zeta. by destruct (allProvidersFailed _ _).
Qed.

(** X9.  With providers registered, a result without records is the
    nil slice, never an allocated empty one: when every provider answers
    and none has a record, the caller gets nil and no error, whereas
    without providers it gets an allocated empty slice. *)
Theorem fetch_without_records_is_nil (sched : scheduler) (clk : clock)
    (query : string) (contentType : option ContentType) (s : ProviderService) :
  service_ok s ->
  registry s <> ∅ ->
  let records := (FetchFromAllProviders sched clk query contentType s).1.1 in
  elems records = [] -> records = nil_slice.
Proof.
  intros Hok Hne. cbv zeta.
  rewrite FetchFromAllProviders_result by done. cbv zeta.
  destruct (allProvidersFailed _ _); simpl; [done|].
  intros Hnil.
  destruct (foldl_providerTask_nil_or_nonempty clk query contentType
              (sched (map_to_list (registry s)))
              (mkFetchState s nil_slice nil_slice) Hok) as [Hc|Hc];
    [by left | done | done].
Qed.

Lemma fetch_without_records_is_nil_witness :
  (FetchFromAllProviders inOrder sampleClock "test" None
     (NewProviderService
        (Register "provider1" noMatchAdapter NewAdapterRegistry))).1.1
  = nil_slice.
Proof.
  apply (fetch_without_records_is_nil inOrder sampleClock "test" None
           (NewProviderService
              (Register "provider1" noMatchAdapter NewAdapterRegistry))).
  - apply NewProviderService_ok.
  - vm_compute. discriminate.
  - vm_compute. reflexivity.
Defined.

(** X10.  A run creates breakers lazily and only for registered
    providers: afterwards a name has a breaker exactly if it had one
    before or is registered, and every breaker that existed is still the
    one its name points to. *)
Theorem fetch_creates_breakers_for_registered (sched : scheduler) (clk : clock)
    (query : string) (contentType : option ContentType) (s : ProviderService) :
  service_ok s ->
  (forall l, sched l ≡ₚ l) ->
  let s' := (FetchFromAllProviders sched clk query contentType s).2 in
  (forall n p, circuitBreakers s !! n = Some p ->
               circuitBreakers s' !! n = Some p)
  /\ (forall n, is_Some (circuitBreakers s' !! n)
                <-> is_Some (circuitBreakers s !! n) \/ is_Some (registry s !! n)).
Proof.
  intros Hok Hsched.
  destruct (FetchFromAllProviders_breakers sched clk query contentType s
              Hok Hsched) as (_ & _ & _ & _ & Hkeep & Hdom).
  by split.
Qed.

Lemma fetch_creates_breakers_for_registered_witness :
  let s' := (FetchFromAllProviders inOrder sampleClock "test" None
               serviceOneUpOneDown).2 in
  is_Some (circuitBreakers s' !! "provider1")
  /\ ~ is_Some (circuitBreakers s' !! "provider3").
Proof.
  intros s'.
  destruct (fetch_creates_breakers_for_registered inOrder sampleClock "test"
              None serviceOneUpOneDown) as [_ Hdom].
  - apply NewProviderService_ok.
  - intros l. reflexivity.
  - split.
    + apply Hdom. right. vm_compute. eexists. reflexivity.
    + intros [Hold | Hreg]%Hdom.
      * vm_compute in Hold. destruct Hold as [? Hold]. discriminate Hold.
      * vm_compute in Hreg. destruct Hreg as [? Hreg]. discriminate Hreg.
Defined.

(** X11.  Callers that come one after the other share breakers by name:
    a second call for the same name returns the breaker of the first and
    changes nothing, a call for another name returns a different breaker,
    and neither touches the state of a breaker that exists.  A breaker
    made for a new name is closed, with threshold 5 and a reset timeout
    of 30 seconds. *)
Theorem getCircuitBreaker_sequential (n n' : string) (s : ProviderService) :
  service_ok s ->
  n' <> n ->
  let '(p1, s1) := getCircuitBreaker n s in
  let '(p2, s2) := getCircuitBreaker n s1 in
  let '(p3, s3) := getCircuitBreaker n' s1 in
  p2 = p1 /\ s2 = s1
  /\ p3 <> p1
  /\ deref s3 p1 = deref s1 p1
  /\ deref s1 p1 = breakerOf n s
  /\ (lookupBreaker n s = None ->
      deref s1 p1 = NewCircuitBreaker 5 (30 * GoTime.Second)).
Proof.
  intros Hok Hne.
  pose proof (getCircuitBreaker_spec n s Hok) as H1.
  pose proof (getCircuitBreaker_again n s) as Hagain.
  destruct (getCircuitBreaker n s) as [p1 s1]. rewrite Hagain.
  destruct H1 as (Hok1 & _ & Hp1 & Hderef1 & _).
  pose proof (getCircuitBreaker_spec n' s1 Hok1) as H3.
  pose proof (getCircuitBreaker_map n' s1) as Hmap.
  destruct (getCircuitBreaker n' s1) as [p3 s3].
  destruct H3 as (Hok3 & _ & Hp3 & Hderef3 & Hframe3).
  destruct Hmap as [Hkeep _].
  assert (Hp1' : circuitBreakers s3 !! n = Some p1) by (by apply Hkeep).
  split_and!; try done.
  - intros ->. destruct Hok3 as [_ Hinj]. by specialize (Hinj _ _ _ Hp3 Hp1').
  - specialize (Hframe3 n ltac:(done)). unfold breakerOf, lookupBreaker in Hframe3.
    by rewrite Hp1', Hp1 in Hframe3.
  - intros Hnone. rewrite Hderef1. unfold breakerOf. by rewrite Hnone.
Qed.

Lemma getCircuitBreaker_sequential_witness :
  let s := NewProviderService NewAdapterRegistry in
  let '(p1, s1) := getCircuitBreaker "provider1" s in
  let '(p2, s2) := getCircuitBreaker "provider1" s1 in
  let '(p3, s3) := getCircuitBreaker "provider2" s1 in
  p2 = p1 /\ s2 = s1 /\ p3 <> p1.
Proof.
  pose proof (getCircuitBreaker_sequential "provider1" "provider2"
                (NewProviderService NewAdapterRegistry)
                (NewProviderService_ok _) ltac:(discriminate)) as H.
  cbv zeta.
  destruct (getCircuitBreaker "provider1" (NewProviderService NewAdapterRegistry))
    as [p1 s1].
  destruct (getCircuitBreaker "provider1" s1) as [p2 s2].
  destruct (getCircuitBreaker "provider2" s1) as [p3 s3].
  destruct H as (? & ? & ? & _). done.
Defined.

(** ** Rounds of fetching *)

Lemma Execute_fetchClosure_breaker now later a q ct cb w w' :
  (Execute now later (fetchClosure a q ct) cb w).1.1
  = (Execute now later (fetchClosure a q ct) cb w').1.1
  /\ (Execute now later (fetchClosure a q ct) cb w).2
     = (Execute now later (fetchClosure a q ct) cb w').2.
Proof.
  unfold Execute. destruct (Execute_admit now cb); [|done].
  rewrite !fetchClosure_spec. by destruct (FetchContent a q ct).2.
Qed.

Lemma Execute_fetchClosure_failing now later a q ct cb w :
  is_Some (FetchContent a q ct).2 ->
  is_Some (Execute now later (fetchClosure a q ct) cb w).2.
Proof.
  intros [e He]. unfold Execute. destruct (Execute_admit now cb); [|by eexists].
  rewrite fetchClosure_spec, He. by eexists.
Qed.

Lemma fetchRounds_breaker q ct n a (rounds : list (scheduler * clock)) s w :
  service_ok s ->
  Forall (fun r => forall l, r.1 l ≡ₚ l) rounds ->
  registry s !! n = Some a ->
  let s' := fetchRounds q ct rounds s in
  service_ok s' /\ registry s' = registry s
  /\ breakerOf n s' = (runOps (roundCalls a q ct n rounds) (breakerOf n s) w).1.1
  /\ (is_Some (FetchContent a q ct).2 ->
      Forall is_Some (runOps (roundCalls a q ct n rounds) (breakerOf n s) w).2).
Proof.
  revert s w. induction rounds as [|[sched clk] rounds IH]; intros s w Hok Hall Hn.
  { simpl. split_and!; first [done | intros _; constructor]. }
  apply Forall_cons in Hall as [Hsched Hall]. simpl in Hsched.
  unfold fetchRounds. cbn [foldl]. fold (fetchRounds q ct rounds).
  destruct (FetchFromAllProviders_breakers sched clk q ct s Hok Hsched)
    as (Hok1 & Hreg1 & Hmine & _).
  set (s1 := (FetchFromAllProviders sched clk q ct s).2) in *.
  unfold roundCalls. rewrite map_cons. fold (roundCalls a q ct n rounds).
  rewrite runOps_cons. cbn [runOp]. cbv zeta. simpl.
  set (r1 := Execute (clk n).1 (clk n).2 (fetchClosure a q ct) (breakerOf n s) w).
  assert (Hcb1 : breakerOf n s1 = r1.1.1).
  { rewrite (Hmine n a Hn). unfold breakerAfter, r1.
    apply Execute_fetchClosure_breaker. }
  destruct (IH s1 r1.1.2 Hok1 Hall) as (Hok2 & Hreg2 & Hcb2 & Hfail2);
    [by rewrite Hreg1|].
  rewrite Hcb1 in Hcb2, Hfail2.
  split_and!; [exact Hok2 | etrans; [exact Hreg2 | exact Hreg1] | exact Hcb2 |].
  intros Hfails. constructor; [|by apply Hfail2].
  by apply Execute_fetchClosure_failing.
Qed.

(** X12.  A provider that keeps failing is cut off: after as many rounds
    of [FetchFromAllProviders] as its breaker's threshold (5 for a breaker
    the service made) in which its fetch fails, its breaker is open, and
    a further round that comes before the reset timeout has passed ends
    for this provider with the "circuit breaker is open" error, whatever
    its adapter would answer, and leaves its breaker as it is. *)
Theorem failing_provider_is_cut_off (query : string)
    (contentType : option ContentType) (rounds : list (scheduler * clock))
    (s : ProviderService) (n : string) (a : ProviderAdapter) :
  service_ok s ->
  Forall (fun r => forall l, r.1 l ≡ₚ l) rounds ->
  registry s !! n = Some a ->
  is_Some (FetchContent a query contentType).2 ->
  state (breakerOf n s) = CircuitStateClosed ->
  breaker_ok (breakerOf n s) ->
  (1 <= length rounds)%nat ->
  maxFailures (breakerOf n s) <= Z.of_nat (length rounds) ->
  let s' := fetchRounds query contentType rounds s in
  state (breakerOf n s') = CircuitStateOpen
  /\ forall (sched : scheduler) (clk : clock) (a' : ProviderAdapter),
       (forall l, sched l ≡ₚ l) ->
       GoTime.Since (clk n).1 (lastFailureTime (breakerOf n s'))
         < resetTimeout (breakerOf n s') ->
       providerOutcome clk query contentType s' (n, a')
       = inr (errors_New "circuit breaker is open")
       /\ breakerOf n (FetchFromAllProviders sched clk query contentType s').2
          = breakerOf n s'.
Proof.
  intros Hok Hall Hn Hfails Hst Hcb Hone Hlen s'.
  destruct (fetchRounds_breaker query contentType n a rounds s (nil_slice, None)
              Hok Hall Hn) as (Hok' & Hreg' & Hcb' & Hfail').
  fold s' in Hok', Hreg', Hcb'.
  assert (Hopen : state (breakerOf n s') = CircuitStateOpen).
  { rewrite Hcb'.
    assert (Hst' : state (breakerOf n s) <> CircuitStateHalfOpen)
      by (by rewrite Hst).
    destruct (runOps_failing (roundCalls a query contentType n rounds)
                (breakerOf n s) (nil_slice, None) Hcb Hst' (Hfail' Hfails))
      as (_ & _ & Hfin).
    destruct Hfin as [Hopen | (_ & _ & Hfc & Hlt)]; [|done|].
    - unfold roundCalls. intros Hnil%fmap_nil_inv. subst rounds.
      simpl in Hone. lia.
    - assert (Hl : length (roundCalls a query contentType n rounds)
                   = length rounds) by apply length_map.
      rewrite Hl in Hfc. destruct Hcb as (_ & Hfc0 & _). lia. }
  split; [done|]. intros sched clk a' Hsched Hearly. split.
  - unfold providerOutcome. destruct (clk n) as [now later]. simpl in Hearly.
    by rewrite Execute_rejects_while_open.
  - destruct (FetchFromAllProviders_breakers sched clk query contentType s'
                Hok' Hsched) as (_ & _ & Hmine & _).
    rewrite (Hmine n a) by (by rewrite Hreg'). unfold breakerAfter.
    by rewrite Execute_rejects_while_open.
Qed.

Lemma failing_provider_is_cut_off_witness :
  let round := (inOrder, sampleClock) in
  state (breakerOf "provider2"
           (fetchRounds "test" None [round; round; round; round; round]
              serviceOneUpOneDown))
  = CircuitStateOpen.
Proof.
  intros round.
  apply (failing_provider_is_cut_off "test" None
           [round; round; round; round; round] serviceOneUpOneDown
           "provider2" downAdapter).
  - apply NewProviderService_ok.
  - repeat constructor; intros l; reflexivity.
  - vm_compute. reflexivity.
  - vm_compute. eexists. reflexivity.
  - reflexivity.
  - apply NewCircuitBreaker_ok. vm_compute. split; discriminate.
  - simpl. lia.
  - vm_compute. discriminate.
Defined.

(** ** Requests, cache keys and pages *)

(** X13.  [NormalizePagination] always leaves a page of at least 1 and
    a page size between 1 and 100, touches nothing else, keeps values
    that were already valid, and has nothing left to do when applied a
    second time (as happens when a handler and [Search] both apply it). *)
Theorem NormalizePagination_bounds (req : SearchRequest) :
  let r := NormalizePagination req in
  1 <= Page r /\ 1 <= PageSize r <= MaxPageSize
  /\ (1 <= Page req -> Page r = Page req)
  /\ (1 <= PageSize req <= MaxPageSize -> PageSize r = PageSize req)
  /\ Query r = Query req /\ ContentType_ r = ContentType_ req
  /\ SortBy r = SortBy req /\ SortOrder r = SortOrder req
  /\ NormalizePagination r = r.
Proof.
  destruct req as [q ct p ps sb so].
  unfold NormalizePagination, isInvalidPage, isInvalidPageSize,
    exceedsMaxPageSize, DefaultPage, DefaultPageSize, MaxPageSize. simpl.
  repeat (breaker_cases; simpl);
    split_and!; first [done | lia | exfalso; lia].
Qed.

(** X14.  The handlers drop every content-type filter other than
    "video" and "text", so through [ContentHandler.Search] a request with
    an unrecognised filter (the empty one, "all", a misspelt one) is
    looked up under the same cache key as the request without a filter,
    while the two recognised filters are kept. *)
Theorem handler_drops_unknown_filter (req : SearchRequest) (ct : ContentType) :
  let filtered :=
    mkSearchRequest (Query req) (Some ct) (Page req) (PageSize req)
      (SortBy req) (SortOrder req) in
  let unfiltered :=
    mkSearchRequest (Query req) None (Page req) (PageSize req)
      (SortBy req) (SortOrder req) in
  (ContentType_ (handlerPrepare filtered) = None
   \/ ContentType_ (handlerPrepare filtered) = Some ContentTypeVideo
   \/ ContentType_ (handlerPrepare filtered) = Some ContentTypeText)
  /\ (ct = ContentTypeVideo \/ ct = ContentTypeText ->
      ContentType_ (handlerPrepare filtered) = Some ct)
  /\ (ct <> ContentTypeVideo -> ct <> ContentTypeText ->
      handlerPrepare filtered = handlerPrepare unfiltered
      /\ searchCacheKey (handlerPrepare filtered)
         = searchCacheKey (handlerPrepare unfiltered)).
Proof.
  intros filtered unfiltered.
  unfold handlerPrepare, filtered, unfiltered, sanitizeContentType. simpl.
  unfold ContentTypeVideo, ContentTypeText.
  destruct (String.eqb_spec ct "") as [->|Hne]; simpl.
  { split_and!; [by left | by intros [?|?] | done]. }
  destruct (String.eqb_spec ct "video") as [->|Hv]; simpl.
  { split_and!; [by right; left | done | by intros ?]. }
  destruct (String.eqb_spec ct "text") as [->|Ht]; simpl.
  { split_and!; [by right; right | done | by intros _ ?]. }
  split_and!; [by left | by intros [?|?] | done].
Qed.

(** The cache key of [Search], spelt out. *)
Lemma searchCacheKey_fields (req : SearchRequest) :
  searchCacheKey req
  = "search:" +:+ Query req +:+ ":"
      +:+ match ContentType_ req with Some ct => ct | None => "all" end
      +:+ ":" +:+ SortBy req +:+ ":"
      +:+ (if String.eqb (SortOrder req) "asc" then "asc" else "desc").
Proof.
  destruct req as [q ct p ps sb so].
  unfold searchCacheKey, normalizeSearch, NormalizePagination. simpl.
  destruct (String.eqb_spec so "asc") as [->|Hasc]; simpl; [done|].
  destruct (String.eqb_spec so "desc") as [->|Hdesc]; simpl; [done|].
  done.
Qed.

(** X15.  The cache key of [Search] does not depend on the page or the
    page size, and of the sort order it keeps only whether it is "asc":
    requests that agree on the query, the filter (none counting as
    "all") and the sort key, and on being ascending or not, are looked up
    under the same key, so all pages of a search share one cache
    entry. *)
Theorem searchCacheKey_ignores_paging (req1 req2 : SearchRequest) :
  Query req1 = Query req2 ->
  filterOrAll req1 = filterOrAll req2 ->
  SortBy req1 = SortBy req2 ->
  String.eqb (SortOrder req1) "asc" = String.eqb (SortOrder req2) "asc" ->
  searchCacheKey req1 = searchCacheKey req2.
Proof.
  intros Hq Ht Hs Ho. rewrite !searchCacheKey_fields.
  unfold filterOrAll in Ht. by rewrite Hq, Ht, Hs, Ho.
Qed.

Lemma searchCacheKey_ignores_paging_witness :
  searchCacheKey (mkSearchRequest "go" None 1 20 "score" "")
  = searchCacheKey (mkSearchRequest "go" (Some "all") 7 500 "score" "newest").
Proof.
  apply searchCacheKey_ignores_paging; reflexivity.
Defined.

Lemma string_app_nil_l (y : string) : "" +:+ y = y.
Proof. reflexivity. Qed.

Lemma colon_split (x x' y y' : string) :
  colonFree x = true -> colonFree x' = true ->
  x +:+ ":" +:+ y = x' +:+ ":" +:+ y' -> x = x' /\ y = y'.
Proof.
  revert x'. induction x as [|c x IH]; intros [|c' x'] Hx Hx';
    unfold String.append; fold String.append.
  - by intros [= ->].
  - intros [= <- _]. simpl in Hx'. discriminate Hx'.
  - intros [= -> _]. simpl in Hx. discriminate Hx.
  - intros [= -> Heq].
    simpl in Hx, Hx'. apply andb_true_iff in Hx as [_ Hx].
    apply andb_true_iff in Hx' as [_ Hx'].
    destruct (IH x' Hx Hx' Heq) as [-> ->]. done.
Qed.

Lemma cache_key_split (q1 t1 s1 o1 q2 t2 s2 o2 : string) :
  colonFree q1 = true -> colonFree t1 = true -> colonFree s1 = true ->
  colonFree q2 = true -> colonFree t2 = true -> colonFree s2 = true ->
  "search:" +:+ q1 +:+ ":" +:+ t1 +:+ ":" +:+ s1 +:+ ":" +:+ o1
  = "search:" +:+ q2 +:+ ":" +:+ t2 +:+ ":" +:+ s2 +:+ ":" +:+ o2 ->
  q1 = q2 /\ t1 = t2 /\ s1 = s2 /\ o1 = o2.
Proof.
  intros Hq1 Ht1 Hs1 Hq2 Ht2 Hs2 Hkey.
  change ("search:" +:+ ?x) with
    (String "s" (String "e" (String "a" (String "r" (String "c"
      (String "h" (String ":" x))))))) in Hkey.
  injection Hkey as Hkey.
  apply colon_split in Hkey as [Hq Hkey]; [|done..].
  apply colon_split in Hkey as [Ht Hkey]; [|done..].
  apply colon_split in Hkey as [Hs Ho]; done.
Qed.

(** X16.  As long as the query, the filter and the sort key contain no
    colon, the cache key determines them and the sort order: requests
    with the same key then agree on all four fields. *)
Theorem generateCacheKey_injective (req1 req2 : SearchRequest) :
  colonFree (Query req1) = true ->
  colonFree (filterOrAll req1) = true ->
  colonFree (SortBy req1) = true ->
  colonFree (Query req2) = true ->
  colonFree (filterOrAll req2) = true ->
  colonFree (SortBy req2) = true ->
  generateCacheKey req1 = generateCacheKey req2 ->
  keyFields req1 = keyFields req2.
Proof.
  intros Hq1 Ht1 Hs1 Hq2 Ht2 Hs2 Hkey.
  destruct (cache_key_split _ _ _ _ _ _ _ _ Hq1 Ht1 Hs1 Hq2 Ht2 Hs2 Hkey)
    as (Hq & Ht & Hs & Ho).
  unfold keyFields. by rewrite Hq, Ht, Hs, Ho.
Qed.

Lemma generateCacheKey_injective_witness :
  keyFields (mkSearchRequest "go" None 1 20 "score" "")
  = keyFields (mkSearchRequest "go" (Some "all") 7 50 "score" "desc").
Proof.
  apply generateCacheKey_injective; reflexivity.
Defined.

(** X17.  A colon in the query or the sort key breaks this: the request
    for query [q ++ ":all"] sorted by [s] and the request for query [q]
    sorted by ["all:" ++ s], both without a filter, have the same cache
    key, so each is answered from the other's cache entry. *)
Theorem generateCacheKey_collision (q s : string) (page1 pageSize1 page2
    pageSize2 : Z) (sortOrder : string) :
  let req1 :=
    mkSearchRequest (q +:+ ":all") None page1 pageSize1 s sortOrder in
  let req2 :=
    mkSearchRequest q None page2 pageSize2 ("all:" +:+ s) sortOrder in
  Query req1 <> Query req2
  /\ generateCacheKey req1 = generateCacheKey req2
  /\ searchCacheKey req1 = searchCacheKey req2.
Proof.
  intros req1 req2. split_and!.
  - simpl. intros Heq.
    assert (Hlen : String.length (q +:+ ":all") = String.length q)
      by (by rewrite Heq).
    clear Heq. induction q as [|c q IH]; [done|].
    rewrite string_app_cons in Hlen. simpl in Hlen. apply IH. lia.
  - unfold generateCacheKey, req1, req2. simpl.
    rewrite !string_app_assoc. done.
  - rewrite !searchCacheKey_fields. unfold req1, req2. simpl.
    rewrite !string_app_assoc. done.
Qed.

(** X18.  Pages of a cache hit lose and repeat nothing: for a page size
    [pageSize >= 1], the cached record with index [i] is found on page
    [i / pageSize + 1], at position [i mod pageSize] of that page; and
    that page holds, position by position, the records with the indices
    [(i / pageSize) * pageSize + j] for [j < pageSize] and nothing
    else. *)
Theorem paginate_places_every_record (cached : slice Content) (pageSize i : Z) :
  1 <= pageSize ->
  0 <= i < len cached ->
  len cached + pageSize <= GoInt.max_int ->
  exists items,
    paginateCachedResults cached (i / pageSize + 1) pageSize = Some items
    /\ elems items !! Z.to_nat (i mod pageSize) = elems cached !! Z.to_nat i
    /\ forall j : nat,
         elems items !! j
         = if Z.of_nat j <? pageSize
           then elems cached !! (Z.to_nat (i / pageSize * pageSize) + j)%nat
           else None.
Proof.
  intros Hsize Hi Hmax.
  pose proof (Z.div_mod i pageSize ltac:(lia)) as Hdm.
  pose proof (Z.mod_pos_bound i pageSize ltac:(lia)) as Hmod.
  assert (Hq : 0 <= i / pageSize) by (apply Z.div_pos; lia).
  destruct (paginateCachedResults_in_range cached (i / pageSize + 1) pageSize)
    as (items & Hsome & Hitems); [nia | lia | lia |].
  exists items. split; [done|]. rewrite Hitems. unfold pageOf.
  replace (i / pageSize + 1 - 1) with (i / pageSize) by lia.
  split.
  - rewrite lookup_take_lt by lia. rewrite lookup_drop. f_equal. nia.
  - intros j. destruct (Z.ltb_spec (Z.of_nat j) pageSize) as [Hj|Hj].
    + rewrite lookup_take_lt by lia. by rewrite lookup_drop.
    + apply lookup_take_ge. lia.
Qed.

Lemma paginate_places_every_record_witness :
  exists items,
    paginateCachedResults threeItems (2 / 2 + 1) 2 = Some items
    /\ elems items !! Z.to_nat (2 mod 2) = elems threeItems !! Z.to_nat 2
    /\ forall j : nat,
         elems items !! j
         = if Z.of_nat j <? 2
           then elems threeItems !! (Z.to_nat (2 / 2 * 2) + j)%nat
           else None.
Proof.
  apply (paginate_places_every_record threeItems 2 2).
  - lia.
  - vm_compute. split; [discriminate | reflexivity].
  - vm_compute. discriminate.
Defined.

(** On three records that differ, the three pages of two are the first
    two records, the third record, and nothing. *)
Example paginate_three_items_by_two :
  paginateCachedResults threeItems 1 2
  = Some (mk_slice [itemNumber 1 "Item 1"; itemNumber 2 "Item 2"])
  /\ paginateCachedResults threeItems 2 2
     = Some (mk_slice [itemNumber 3 "Item 3"])
  /\ paginateCachedResults threeItems 3 2 = Some (mk_slice []).
Proof. vm_compute. done. Qed.

(** X19.  Where the page arithmetic stays within [int], a page holds
    as many records as are left from its start index on, and never more
    than [pageSize]: [min(pageSize, total - (page - 1) * pageSize)], or
    none when the start index is at or beyond the end. *)
Theorem paginate_page_length (cached : slice Content) (page pageSize : Z) :
  1 <= page -> 1 <= pageSize -> page * pageSize <= GoInt.max_int ->
  exists items,
    paginateCachedResults cached page pageSize = Some items
    /\ len items
       = Z.max 0 (Z.min pageSize (len cached - (page - 1) * pageSize)).
Proof.
  intros Hpage Hsize Hmax.
  destruct (paginateCachedResults_in_range cached page pageSize Hmax Hpage Hsize)
    as (items & Hsome & Hitems).
  exists items. split; [done|]. unfold len. rewrite Hitems. unfold pageOf.
  rewrite length_take, length_drop. nia.
Qed.

Lemma paginate_page_length_witness :
  exists items,
    paginateCachedResults threeRecords 2 2 = Some items
    /\ len items = Z.max 0 (Z.min 2 (len threeRecords - (2 - 1) * 2)).
Proof.
  apply (paginate_page_length threeRecords 2 2); [lia | lia |].
  vm_compute. discriminate.
Defined.

Lemma NormalizePagination_range req :
  1 <= Page (NormalizePagination req)
  /\ 1 <= PageSize (NormalizePagination req) <= 100.
Proof.
  destruct req as [q ct p ps sb so].
  unfold NormalizePagination, isInvalidPage, isInvalidPageSize,
    exceedsMaxPageSize, DefaultPage, DefaultPageSize, MaxPageSize. simpl.
  repeat (breaker_cases; simpl); lia.
Qed.

Lemma normalizeSearch_pagination req :
  Page (normalizeSearch req) = Page (NormalizePagination req)
  /\ PageSize (normalizeSearch req) = PageSize (NormalizePagination req).
Proof. unfold normalizeSearch. by destruct (_ && _). Qed.

(** X20.  On a cache hit, for a request whose normalised page keeps the
    page arithmetic within [int], [Search] answers with the normalised
    page number and page size, the number of cached records as total, the
    page of the cached records as items, and as number of pages the least
    [n] with [n * pageSize >= total]. *)
Theorem searchCacheHit_response (req : SearchRequest) (cached : slice Content) :
  let page := Page (NormalizePagination req) in
  let pageSize := PageSize (NormalizePagination req) in
  page * pageSize <= GoInt.max_int ->
  len cached + MaxPageSize <= GoInt.max_int ->
  exists resp,
    searchCacheHit req cached = Some resp
    /\ RespPage resp = page /\ RespPageSize resp = pageSize
    /\ Total resp = len cached
    /\ elems (Items resp) = pageOf cached page pageSize
    /\ (TotalPages resp - 1) * pageSize < Total resp <= TotalPages resp * pageSize.
Proof.
  intros page pageSize Hmax Hlen.
  destruct (NormalizePagination_range req) as [Hpage Hsize].
  destruct (normalizeSearch_pagination req) as [Hp Hps].
  fold page in Hpage, Hp. fold pageSize in Hsize, Hps.
  unfold searchCacheHit. rewrite Hp, Hps.
  destruct (paginateCachedResults_in_range cached page pageSize Hmax)
    as (items & Hsome & Hitems); [lia | lia |].
  rewrite Hsome. eexists. split; [reflexivity|]. simpl.
  assert (Hpages :
    (Z.quot (GoInt.sub (GoInt.add (len cached) pageSize) 1) pageSize - 1)
      * pageSize < len cached
    <= Z.quot (GoInt.sub (GoInt.add (len cached) pageSize) 1) pageSize
       * pageSize).
  { assert (Hlen0 : 0 <= len cached) by (unfold len; lia).
    unfold MaxPageSize in Hlen.
    unfold GoInt.sub, GoInt.add.
    rewrite (GoInt_wrap_id (len cached + pageSize))
      by (unfold GoInt.in_range, GoInt.min_int, GoInt.max_int in *; lia).
    rewrite GoInt_wrap_id
      by (unfold GoInt.in_range, GoInt.min_int, GoInt.max_int in *; lia).
    rewrite Z.quot_div_nonneg by lia.
    pose proof (Z.div_mod (len cached + pageSize - 1) pageSize ltac:(lia)) as Hdm.
    pose proof (Z.mod_pos_bound (len cached + pageSize - 1) pageSize ltac:(lia)).
    nia. }
  split_and!; try done; apply Hpages.
Qed.

Lemma searchCacheHit_response_witness :
  exists resp,
    searchCacheHit (mkSearchRequest "go" None 2 2 "score" "desc") threeRecords
    = Some resp
    /\ RespPage resp = 2 /\ RespPageSize resp = 2
    /\ Total resp = 3
    /\ elems (Items resp) = pageOf threeRecords 2 2
    /\ (TotalPages resp - 1) * 2 < Total resp <= TotalPages resp * 2.
Proof.
  apply (searchCacheHit_response (mkSearchRequest "go" None 2 2 "score" "desc")
           threeRecords); vm_compute; discriminate.
Defined.

(** ** The in-memory cache *)

Lemma oldestEntry_step entries k v :
  oldestEntry (entries ++ [(k, v)])
  = let '(oldestKey, oldestTime) := oldestEntry entries in
    if Time_IsZero oldestTime || Time_Before (expiresAt v) oldestTime
    then (k, expiresAt v)
    else (oldestKey, oldestTime).
Proof.
  unfold oldestEntry. rewrite foldl_app. simpl.
  by destruct (foldl _ _ entries).
Qed.

(** What the loop of [evictOldestEntryLocked] finds among entries none
    of which expires at the zero instant: an entry that expires first. *)
Lemma oldestEntry_minimal (entries : list (string * cacheItem)) :
  entries <> [] ->
  (forall k v, (k, v) ∈ entries -> expiresAt v <> GoTime.zero) ->
  exists k v,
    (k, v) ∈ entries
    /\ oldestEntry entries = (k, expiresAt v)
    /\ forall k' v', (k', v') ∈ entries -> expiresAt v <= expiresAt v'.
Proof.
  induction entries as [|[k v] entries IH] using rev_ind; [done|].
  intros _ Hnz. rewrite oldestEntry_step.
  destruct (decide (entries = [])) as [->|Hne].
  { simpl. exists k, v. split_and!; [set_solver | done |].
    intros k' v' Hin. apply list_elem_of_singleton in Hin. by simplify_eq. }
  destruct IH as (k0 & v0 & Hin0 & Hold & Hmin); [done | |].
  { intros k' v' Hin. apply (Hnz k' v'). set_solver. }
  rewrite Hold.
  assert (Hz : Time_IsZero (expiresAt v0) = false).
  { unfold Time_IsZero. apply Z.eqb_neq. apply (Hnz k0 v0). set_solver. }
  rewrite Hz. simpl. unfold Time_Before.
  destruct (Z.ltb_spec (expiresAt v) (expiresAt v0)) as [Hlt|Hge].
  - exists k, v. split_and!; [set_solver | done |].
    intros k' v' [Hin|Hin]%elem_of_app.
    + specialize (Hmin k' v' Hin). lia.
    + apply list_elem_of_singleton in Hin. simplify_eq. lia.
  - exists k0, v0. split_and!; [set_solver | done |].
    intros k' v' [Hin|Hin]%elem_of_app.
    + by apply (Hmin k' v').
    + apply list_elem_of_singleton in Hin. by simplify_eq.
Qed.

Lemma oldestEntry_key (entries : list (string * cacheItem)) :
  entries <> [] -> (oldestEntry entries).1 ∈ entries.*1.
Proof.
  induction entries as [|[k v] entries IH] using rev_ind; [done|].
  intros _. rewrite oldestEntry_step, fmap_app. simpl.
  destruct (decide (entries = [])) as [->|Hne]; [simpl; set_solver|].
  specialize (IH Hne). destruct (oldestEntry entries) as [k0 t0]. simpl in IH.
  destruct (_ || _); simpl; apply elem_of_app.
  - right. by apply list_elem_of_singleton.
  - by left.
Qed.

(** X21.  What [Set] stores, [Get] returns until it expires: a value
    stored at [now] with time-to-live [ttl_] (the cache's default when
    [ttl_] is 0) is found, unchanged, by every [Get] for its key up to and
    including the instant [now + ttl_], and such a [Get] leaves the cache
    as it is. *)
Theorem cache_Get_after_Set (order : mapOrder) (now later : GoTime.Time)
    (key : string) (v : slice Content) (ttl_ : GoTime.Duration)
    (c : InMemoryCache) :
  let stored := InMemoryCache_Set order now key v ttl_ c in
  let lifetime := if ttl_ =? 0 then ttl c else ttl_ in
  later <= now + lifetime ->
  InMemoryCache_Get later key stored = ((v, true), stored).
Proof.
  intros stored lifetime Hlive.
  unfold InMemoryCache_Get, stored, InMemoryCache_Set. simpl.
  rewrite lookup_insert_eq. unfold hasExpiredItem, Time_After, Time_Add. simpl.
  fold lifetime. by destruct (Z.ltb_spec (now + lifetime) later); [lia|].
Qed.

Lemma cache_Get_after_Set_witness :
  InMemoryCache_Get (100 + 5 * Minute) "search:go:all:score:desc"
    (InMemoryCache_Set (fun l => l) 100 "search:go:all:score:desc"
       threeRecords 0 NewInMemory)
  = ((threeRecords, true),
     InMemoryCache_Set (fun l => l) 100 "search:go:all:score:desc"
       threeRecords 0 NewInMemory).
Proof.
  apply (cache_Get_after_Set (fun l => l) 100 (100 + 5 * Minute)
           "search:go:all:score:desc" threeRecords 0 NewInMemory).
  vm_compute. discriminate.
Defined.

(** X22.  A [Get] that comes after the entry has expired reports a miss
    with a nil slice and removes the entry, so the key is absent
    afterwards and the other entries are untouched; a [Get] for a key
    that is not stored reports a miss and changes nothing. *)
Theorem cache_Get_expired_or_missing (now : GoTime.Time) (key : string)
    (c : InMemoryCache) :
  let '(result, c') := InMemoryCache_Get now key c in
  (data c !! key = None -> result = (nil_slice, false) /\ c' = c)
  /\ (forall item, data c !! key = Some item -> expiresAt item < now ->
        result = (nil_slice, false)
        /\ data c' !! key = None
        /\ (forall k, k <> key -> data c' !! k = data c !! k)
        /\ ttl c' = ttl c /\ maxSize c' = maxSize c).
Proof.
  unfold InMemoryCache_Get, hasExpiredItem, Time_After.
  destruct (data c !! key) as [item|] eqn:Hkey.
  - destruct (Z.ltb_spec (expiresAt item) now) as [Hexp|Hlive]; simpl.
    + split; [done|]. intros ? [= <-] _. split_and!; try done.
      * apply lookup_delete_eq.
      * intros k Hk. by apply lookup_delete_ne.
    + split; [done|]. intros ? [= <-] ?. lia.
  - by split.
Qed.

Lemma evictOldestEntryLocked_size order c :
  (forall l, order l ≡ₚ l) ->
  data c !! "" = None ->
  data c <> ∅ ->
  S (size (data (evictOldestEntryLocked order c))) = size (data c)
  /\ data (evictOldestEntryLocked order c) !! "" = None.
Proof.
  intros Horder Hnokey Hne. unfold evictOldestEntryLocked.
  assert (Hne' : order (map_to_list (data c)) <> []).
  { intros Hnil. apply Hne, map_to_list_empty_iff.
    apply Permutation_nil_r. by rewrite <- (Horder _), Hnil. }
  pose proof (oldestEntry_key _ Hne') as Hin.
  destruct (oldestEntry (order (map_to_list (data c)))) as [k t]. simpl in Hin.
  rewrite (Horder _) in Hin.
  apply list_elem_of_fmap in Hin as ([k' item] & -> & Hin).
  apply elem_of_map_to_list in Hin. simpl.
  destruct (String.eqb_spec k' "") as [->|Hk]; [congruence|]. simpl.
  split.
  - rewrite map_size_delete, Hin.
    assert (size (data c) <> 0%nat)
      by (rewrite map_size_non_empty_iff; done).
    lia.
  - by rewrite lookup_delete_ne.
Qed.

(** X23.  [Set] keeps the cache within its capacity: if no entry is
    stored under the empty key (the keys of [Search] all start with
    "search:"), the capacity is at least 1 and the cache holds at most
    that many entries, then it still does after [Set], and the new entry
    is among them. *)
Theorem cache_Set_within_capacity (order : mapOrder) (now : GoTime.Time)
    (key : string) (v : slice Content) (ttl_ : GoTime.Duration)
    (c : InMemoryCache) :
  (forall l, order l ≡ₚ l) ->
  key <> "" ->
  data c !! "" = None ->
  1 <= maxSize c ->
  Z.of_nat (size (data c)) <= maxSize c ->
  let c' := InMemoryCache_Set order now key v ttl_ c in
  Z.of_nat (size (data c')) <= maxSize c'
  /\ data c' !! "" = None
  /\ is_Some (data c' !! key)
  /\ maxSize c' = maxSize c /\ ttl c' = ttl c.
Proof.
  intros Horder Hkey Hnokey Hcap Hsize c'. subst c'.
  unfold InMemoryCache_Set, isCacheFullLocked.
  destruct (Z.leb_spec (maxSize c) (Z.of_nat (size (data c)))) as [Hfull|Hroom].
  - assert (Hne : data c <> ∅).
    { intros Hempty. rewrite Hempty, map_size_empty in Hfull. lia. }
    destruct (evictOldestEntryLocked_size order c Horder Hnokey Hne)
      as [Hless Hnokey'].
    assert (Hcfg : maxSize (evictOldestEntryLocked order c) = maxSize c
                   /\ ttl (evictOldestEntryLocked order c) = ttl c).
    { unfold evictOldestEntryLocked. destruct (oldestEntry _) as [k t].
      by destruct (negb _). }
    destruct Hcfg as [Hmax Httl]. simpl. rewrite Hmax, Httl.
    split_and!; try done.
    + rewrite map_size_insert.
      destruct (data (evictOldestEntryLocked order c) !! key); unfold id; lia.
    + by rewrite lookup_insert_ne.
    + rewrite lookup_insert_eq. by eexists.
  - simpl. split_and!; try done.
    + rewrite map_size_insert. destruct (data c !! key); unfold id; lia.
    + by rewrite lookup_insert_ne.
    + rewrite lookup_insert_eq. by eexists.
Qed.

Lemma cache_Set_within_capacity_witness :
  let full := mkInMemoryCache
                (<["search:a:all:score:desc" := mkCacheItem threeRecords 50]> ∅)
                (5 * Minute) 1 in
  let c' := InMemoryCache_Set (fun l => l) 100 "search:b:all:score:desc"
              threeRecords 0 full in
  Z.of_nat (size (data c')) <= maxSize c'
  /\ data c' !! "" = None
  /\ is_Some (data c' !! "search:b:all:score:desc")
  /\ maxSize c' = maxSize full /\ ttl c' = ttl full.
Proof.
  intros full.
  apply (cache_Set_within_capacity (fun l => l) 100 "search:b:all:score:desc"
           threeRecords 0 full).
  - intros l. reflexivity.
  - discriminate.
  - vm_compute. reflexivity.
  - vm_compute. discriminate.
  - vm_compute. discriminate.
Defined.

(** X24.  When the cache is full, [Set] makes room by dropping one
    entry that expires first: provided no entry is stored under the empty
    key or expires at the zero instant, the entry evicted expires no
    later than any other, and every other entry survives the
    eviction. *)
Theorem cache_evicts_earliest_expiry (order : mapOrder) (c : InMemoryCache) :
  (forall l, order l ≡ₚ l) ->
  data c <> ∅ ->
  data c !! "" = None ->
  (forall k item, data c !! k = Some item -> expiresAt item <> GoTime.zero) ->
  exists k item,
    data c !! k = Some item
    /\ (forall k' item', data c !! k' = Some item' ->
          expiresAt item <= expiresAt item')
    /\ data (evictOldestEntryLocked order c) = delete k (data c).
Proof.
  intros Horder Hne Hnokey Hnz.
  assert (Hne' : order (map_to_list (data c)) <> []).
  { intros Hnil. apply Hne, map_to_list_empty_iff.
    apply Permutation_nil_r. by rewrite <- (Horder _), Hnil. }
  assert (Hin : forall k item,
            (k, item) ∈ order (map_to_list (data c)) <-> data c !! k = Some item).
  { intros k item. rewrite (Horder _). apply elem_of_map_to_list. }
  destruct (oldestEntry_minimal _ Hne') as (k & item & Hk & Hold & Hmin).
  { intros k item Hki. apply (Hnz k item). by apply Hin. }
  exists k, item. split_and!.
  - by apply Hin.
  - intros k' item' Hk'. apply (Hmin k' item'). by apply Hin.
  - unfold evictOldestEntryLocked. rewrite Hold.
    destruct (String.eqb_spec k "") as [->|Hkne]; [|done].
    apply Hin in Hk. congruence.
Qed.

Lemma cache_evicts_earliest_expiry_witness :
  let c := mkInMemoryCache
             (<["search:a:all:score:desc" := mkCacheItem threeRecords 50]>
                (<["search:b:all:score:desc" := mkCacheItem nil_slice 70]> ∅))
             (5 * Minute) 2 in
  exists k item,
    data c !! k = Some item
    /\ (forall k' item', data c !! k' = Some item' ->
          expiresAt item <= expiresAt item')
    /\ data (evictOldestEntryLocked (fun l => l) c) = delete k (data c).
Proof.
  intros c.
  apply (cache_evicts_earliest_expiry (fun l => l) c).
  - intros l. reflexivity.
  - vm_compute. discriminate.
  - vm_compute. reflexivity.
  - intros k item. unfold c. simpl.
    intros [[_ <-]|[_ [[_ <-]|[_ Hk]]%lookup_insert_Some]]%lookup_insert_Some.
    + discriminate.
    + discriminate.
    + by rewrite lookup_empty in Hk.
Defined.

(** ** The recency boost *)

Lemma saturate_mono d1 d2 :
  d1 <= d2 -> GoTime.saturate d1 <= GoTime.saturate d2.
Proof.
  unfold GoTime.saturate, GoInt.min_int, GoInt.max_int. intros Hle.
  repeat (breaker_cases; simpl); lia.
Qed.

Lemma saturate_le_iff d K :
  GoInt.min_int <= K < GoInt.max_int -> GoTime.saturate d <= K <-> d <= K.
Proof.
  unfold GoTime.saturate, GoInt.min_int, GoInt.max_int. intros HK.
  repeat (breaker_cases; simpl); lia.
Qed.

(** The boost depends on the age alone, and the saturation of the age
    does not show. *)
Lemma RecentContentBoost_boostOfAge now created :
  RecentContentBoost now created = boostOfAge (now - created).
Proof.
  unfold RecentContentBoost, boostOfAge, GoTime.Sub, isWithinWeek,
    isWithinMonth, isWithinThreeMonths.
  assert (Hk : forall K, (K = 7 * 24 * Hour \/ K = 30 * 24 * Hour
                          \/ K = 90 * 24 * Hour) ->
             (GoTime.saturate (now - created) <=? K) = (now - created <=? K)).
  { intros K HK. apply eq_true_iff_eq. rewrite !Z.leb_le.
    apply saturate_le_iff.
    destruct HK as [-> | [-> | ->]]; vm_compute; split; (discriminate || done). }
  rewrite !Hk by tauto. done.
Qed.

(** X25.  The recency boost is 5 for a record at most a week old (among
    them every record dated in the future), 3 for an older one at most 30
    days old, 1 for an older one at most 90 days old, and 0 beyond; so it
    never favours the older of two records: a record created later gets
    at least the boost of one created earlier. *)
Theorem RecentContentBoost_monotone (now created1 created2 : GoTime.Time) :
  created1 <= created2 ->
  let tiers created :=
    (now - created <= 7 * 24 * Hour -> RecentContentBoost now created = 5)
    /\ (7 * 24 * Hour < now - created <= 30 * 24 * Hour ->
        RecentContentBoost now created = 3)
    /\ (30 * 24 * Hour < now - created <= 90 * 24 * Hour ->
        RecentContentBoost now created = 1)
    /\ (90 * 24 * Hour < now - created -> RecentContentBoost now created = 0) in
  RecentContentBoost now created1 <= RecentContentBoost now created2
  /\ tiers created1 /\ tiers created2.
Proof.
  intros Hle tiers.
  assert (H7 : 7 * 24 * Hour < 30 * 24 * Hour) by (vm_compute; reflexivity).
  assert (H30 : 30 * 24 * Hour < 90 * 24 * Hour) by (vm_compute; reflexivity).
  assert (Htiers : forall created, tiers created).
  { intros created. unfold tiers. rewrite RecentContentBoost_boostOfAge.
    unfold boostOfAge. repeat split; intros Hage;
      repeat (breaker_cases; simpl); first [done | lia]. }
  split; [|by split].
  rewrite !RecentContentBoost_boostOfAge. unfold boostOfAge.
  repeat (breaker_cases; simpl); lia.
Qed.

Lemma RecentContentBoost_monotone_witness :
  RecentContentBoost (100 * 24 * Hour) (20 * 24 * Hour) = 1
  /\ RecentContentBoost (100 * 24 * Hour) (80 * 24 * Hour) = 3
  /\ RecentContentBoost (100 * 24 * Hour) (20 * 24 * Hour)
     <= RecentContentBoost (100 * 24 * Hour) (80 * 24 * Hour).
Proof.
  destruct (RecentContentBoost_monotone (100 * 24 * Hour) (20 * 24 * Hour)
              (80 * 24 * Hour)) as (Hmono & Hold & Hnew).
  - vm_compute. discriminate.
  - destruct Hold as (_ & _ & Hone & _). destruct Hnew as (_ & Hthree & _).
    split; [|split].
    + apply Hone. vm_compute. split; [reflexivity | discriminate].
    + apply Hthree. vm_compute. split; [reflexivity | discriminate].
    + exact Hmono.
Defined.



